(** * Crossword CSP solver (week 3, generate.py): model and verified properties

    The Python class [CrosswordCreator] is embedded as pure functions over an
    explicit Domain Store.  Python exceptions are results of an error monad,
    Python sets and dicts are lists that keep their iteration order, and the
    [while] loop of [ac3] and the recursion of [backtrack] run on fuel that is
    computed from their arguments. *)

From Stdlib Require Import List String Ascii Arith Bool Lia Permutation Sorted.
Import ListNotations.

Set Implicit Arguments.

(** ** Python results: a value, a raised exception, or fuel exhausted *)

Inductive exn : Set := IndexError | KeyError | TypeError | UnboundLocalError.

Inductive res (A : Type) : Type :=
| Ok (a : A)
| Raise (e : exn)
| Timeout.

Arguments Ok {A} a.
Arguments Raise {A} e.
Arguments Timeout {A}.

Definition bind {A B : Type} (m : res A) (k : A -> res B) : res B :=
  match m with
  | Ok a => k a
  | Raise e => Raise e
  | Timeout => Timeout
  end.

Notation "x <- m ;; k" := (bind m (fun x => k))
  (at level 61, m at next level, right associativity).
Notation "' pat <- m ;; k" := (bind m (fun x => match x with pat => k end))
  (at level 61, pat pattern, m at next level, right associativity).

(** [for a in l: s = f(s, a)], stopping at the first exception. *)
Fixpoint foldM {S A : Type} (f : S -> A -> res S) (l : list A) (s : S) : res S :=
  match l with
  | [] => Ok s
  | a :: l' => s' <- f s a ;; foldM f l' s'
  end.

(** A loop whose body may [return False]; [True] when it runs to the end. *)
Fixpoint allM {A : Type} (p : A -> res bool) (l : list A) : res bool :=
  match l with
  | [] => Ok true
  | a :: l' => b <- p a ;; if b then allM p l' else Ok false
  end.

(** [any(p(a) for a in l)]: lazy, stops at the first true element. *)
Fixpoint anyM {A : Type} (p : A -> res bool) (l : list A) : res bool :=
  match l with
  | [] => Ok false
  | a :: l' => b <- p a ;; if b then Ok true else anyM p l'
  end.

(** ** Python dicts: association lists in insertion order *)

Section Dict.
Context {K V : Type}.
Variable K_eq_dec : forall a b : K, {a = b} + {a <> b}.

Definition dict := list (K * V).

Fixpoint dict_get (d : dict) (k : K) : option V :=
  match d with
  | [] => None
  | (k', v) :: d' => if K_eq_dec k k' then Some v else dict_get d' k
  end.

(** [d[k] = v]: an existing key keeps its position, a new one goes last. *)
Fixpoint dict_set (d : dict) (k : K) (v : V) : dict :=
  match d with
  | [] => [(k, v)]
  | (k', v') :: d' =>
      if K_eq_dec k k' then (k', v) :: d' else (k', v') :: dict_set d' k v
  end.

(** [k in d] *)
Definition dict_mem (d : dict) (k : K) : bool :=
  match dict_get d k with Some _ => true | None => false end.

Definition dict_keys (d : dict) : list K := map fst d.
Definition dict_values (d : dict) : list V := map snd d.

(** [d[k]], raising KeyError on a missing key. *)
Definition getitem (d : dict) (k : K) : res V :=
  match dict_get d k with Some v => Ok v | None => Raise KeyError end.
End Dict.

(** ** [sorted(l, key=...)]: a stable sort, ascending by key *)

Section Sorted.
Context {A : Type}.
Variable key : A -> nat.

Fixpoint insert_by (a : A) (l : list A) : list A :=
  match l with
  | [] => [a]
  | b :: l' => if key a <=? key b then a :: b :: l' else b :: insert_by a l'
  end.

Definition sorted_by (l : list A) : list A := fold_right insert_by [] l.

(** The order the result is sorted in. *)
Definition key_le (a b : A) : Prop := key a <= key b.
End Sorted.

(** ** Words and variables *)

Definition word := string.

(** [w[i]] for a non-negative index. *)
Definition index (w : word) (i : nat) : res ascii :=
  match String.get i w with
  | Some c => Ok c
  | None => Raise IndexError
  end.

Inductive Direction : Set := ACROSS | DOWN.

(** Modelled from the spec: the class Variable of the Puzzle Model
    (crossword.py is not part of the sources): start row [i], start column
    [j], direction and length; equality is on all four fields. *)
Record Var : Set := mkVar {
  var_i : nat;
  var_j : nat;
  var_direction : Direction;
  var_length : nat
}.

Definition Direction_eq_dec (a b : Direction) : {a = b} + {a <> b}.
Proof. decide equality. Defined.

Definition Var_eq_dec (a b : Var) : {a = b} + {a <> b}.
Proof. decide equality; try apply Nat.eq_dec; apply Direction_eq_dec. Defined.

Definition arc : Set := (Var * Var)%type.

Definition arc_eq_dec (a b : arc) : {a = b} + {a <> b}.
Proof. decide equality; apply Var_eq_dec. Defined.

(** [self.domains]: variable -> set of words; an assignment: variable -> word. *)
Definition domains := @dict Var (list word).
Definition assignment := @dict Var word.

(** Set size after [set(...)] of a list of words. *)
Definition distinct_count (l : list word) : nat :=
  List.length (nodup string_dec l).

(** [s.remove(w)] on a set that contains [w]. *)
Definition set_remove (w : word) (s : list word) : list word :=
  filter (fun v => if string_dec v w then false else true) s.

(** [i, j = v]: unpacking None raises TypeError. *)
Definition unpack (o : option (nat * nat)) : res (nat * nat) :=
  match o with
  | Some ij => Ok ij
  | None => Raise TypeError
  end.

(** [a[i] == b[j]] and [a[i] != b[j]], left operand first. *)
Definition eq_at (a : word) (i : nat) (b : word) (j : nat) : res bool :=
  ca <- index a i ;; cb <- index b j ;;
  Ok (if ascii_dec ca cb then true else false).

Definition ne_at (a : word) (i : nat) (b : word) (j : nat) : res bool :=
  ca <- index a i ;; cb <- index b j ;;
  Ok (if ascii_dec ca cb then false else true).

(** ** The solver, over a Puzzle Model *)

Section CrosswordCreator.

(** The Puzzle Model, which the solver only reads: [crossword.variables] in
    the order the set is iterated in, [crossword.words], and
    [crossword.overlaps], None for two variables that do not cross. *)
Variable variables : list Var.
Variable words : list word.
Variable overlaps : Var -> Var -> option (nat * nat).

(** Modelled from the spec: the neighbor lookup of the Puzzle Model
    (crossword.py is not part of the sources): the variables other than
    [var] that share an overlap with it. *)
Definition neighbors (var : Var) : list Var :=
  filter (fun v => if Var_eq_dec v var then false
                   else match overlaps v var with Some _ => true | None => false end)
         variables.

(** __init__: every variable starts with a copy of the word list. *)
Definition init_domains : domains :=
  fold_left (fun d var => dict_set Var_eq_dec d var words) variables [].

Definition enforce_node_consistency (doms : domains) : domains :=
  map (fun '(var, vals) =>
         (var, filter (fun val => String.length val =? var_length var) vals))
      doms.

(** One pass of the loop of [revise] over the snapshot [copy_domain]. *)
Definition revise_body (copy_domain : domains) (x y : Var) (i j : nat)
           (st : bool * domains) (x_val : word) : res (bool * domains) :=
  let '(revision, doms) := st in
  dy <- getitem Var_eq_dec copy_domain y ;;
  found <- anyM (fun y_val => eq_at x_val i y_val j) dy ;;
  if found then Ok (revision, doms)
  else
    dx <- getitem Var_eq_dec doms x ;;
    Ok (true, dict_set Var_eq_dec doms x (set_remove x_val dx)).

Definition revise (doms : domains) (x y : Var) : res (bool * domains) :=
  '(i, j) <- unpack (overlaps x y) ;;
  let copy_domain := doms in
  dx <- getitem Var_eq_dec copy_domain x ;;
  foldM (revise_body copy_domain x y i j) dx (false, doms).

Definition arcs_helper (doms : domains) : list arc :=
  flat_map (fun var => map (fun neighbour => (var, neighbour)) (neighbors var))
           (dict_keys doms).

(** [for neighbour in neighbors(x) - {y}: if (x, neighbour) not in arcs: append] *)
Definition enqueue (x : Var) (arcs : list arc) (neighbour : Var) : list arc :=
  if in_dec arc_eq_dec (x, neighbour) arcs then arcs
  else arcs ++ [(x, neighbour)].

Inductive ac3_state : Type :=
| Return (b : bool) (doms : domains)
| Continue (doms : domains) (arcs : list arc).

(** One iteration of [while arcs:]. *)
Definition ac3_step (doms : domains) (arcs : list arc) : res ac3_state :=
  match arcs with
  | [] => Ok (Return true doms)
  | (x, y) :: arcs =>
      '(revised, doms) <- revise doms x y ;;
      if revised then
        dx <- getitem Var_eq_dec doms x ;;
        if List.length dx =? 0 then Ok (Return false doms)
        else
          Ok (Continue doms
                (fold_left (enqueue x)
                   (filter (fun n => if Var_eq_dec n y then false else true)
                           (neighbors x))
                   arcs))
      else Ok (Continue doms arcs)
  end.

Fixpoint ac3_loop (fuel : nat) (doms : domains) (arcs : list arc)
  : res (bool * domains) :=
  match fuel with
  | 0 => Timeout
  | S fuel' =>
      st <- ac3_step doms arcs ;;
      match st with
      | Return b doms' => Ok (b, doms')
      | Continue doms' arcs' => ac3_loop fuel' doms' arcs'
      end
  end.

Definition total_size (doms : domains) : nat :=
  list_sum (map (fun e => List.length (snd e)) doms).

(** A bound on the passes of the loop: every pass pops an arc, and appends
    at most [length variables] arcs only when a domain has lost a word. *)
Definition ac3_measure (doms : domains) (arcs : list arc) : nat :=
  List.length arcs + S (List.length variables) * total_size doms.

Definition ac3_fuel (doms : domains) (arcs : list arc) : nat :=
  S (ac3_measure doms arcs).

(** [ac3(arcs)]; [None] is the default argument. *)
Definition ac3 (doms : domains) (arcs : option (list arc)) : res (bool * domains) :=
  let arcs :=
    match arcs with
    | None | Some [] => arcs_helper doms      (* if not arcs *)
    | Some a => a
    end in
  ac3_loop (ac3_fuel doms arcs) doms arcs.

(** [assignment_complete]; the argument may be None (a failed search). *)
Definition assignment_complete (doms : domains) (a : option assignment) : res bool :=
  match a with
  | Some a => Ok (forallb (fun var => dict_mem Var_eq_dec a var) (dict_keys doms))
  | None =>
      match dict_keys doms with
      | [] => Ok true
      | _ :: _ => Raise TypeError       (* var not in None *)
      end
  end.

(** The innermost test of [consistent]: False when x and y disagree. *)
Definition agree (a : assignment) (x y : Var) : res bool :=
  if Var_eq_dec x y then Ok true
  else
    match overlaps x y with
    | Some (i, j) =>
        ax <- getitem Var_eq_dec a x ;;
        cx <- index ax i ;;
        ay <- getitem Var_eq_dec a y ;;
        cy <- index ay j ;;
        Ok (if ascii_dec cx cy then true else false)
    | None => Ok true
    end.

Definition consistent (a : assignment) : res bool :=
  let values := dict_values a in
  if negb (distinct_count values =? List.length a) then Ok false
  else if negb (forallb (fun '(var, val) => var_length var =? String.length val) a)
  then Ok false
  else allM (fun x => allM (fun y => agree a x y) (dict_keys a)) (dict_keys a).

(** [least_constraining_values[x_val] += 1] *)
Definition increment (lcv : @dict word nat) (x_val : word) : res (@dict word nat) :=
  c <- getitem string_dec lcv x_val ;;
  Ok (dict_set string_dec lcv x_val (c + 1)).

(** The body of [for neighbour in self.crossword.neighbors(var)]. *)
Definition lcv_body (doms : domains) (var : Var) (a : assignment)
           (lcv : @dict word nat) (neighbour : Var) : res (@dict word nat) :=
  if dict_mem Var_eq_dec a neighbour then Ok lcv
  else
    '(i, j) <- unpack (overlaps var neighbour) ;;
    dx <- getitem Var_eq_dec doms var ;;
    foldM (fun lcv x_val =>
             dn <- getitem Var_eq_dec doms neighbour ;;
             foldM (fun lcv y_val =>
                      ne <- ne_at x_val i y_val j ;;
                      if ne then increment lcv x_val else Ok lcv)
                   dn lcv)
          dx lcv.

Definition order_domain_values (doms : domains) (var : Var) (a : assignment)
  : res (list word) :=
  if dict_mem Var_eq_dec a var then Raise UnboundLocalError
  else
    dv <- getitem Var_eq_dec doms var ;;
    let least_constraining_values : @dict word nat :=
      fold_left (fun d val => dict_set string_dec d val 0) dv [] in
    lcv <- foldM (lcv_body doms var a) (neighbors var) least_constraining_values ;;
    Ok (dict_keys (sorted_by snd lcv)).

(** [len(self.domains[x])] for a key [x] of the store. *)
Definition dom_size (doms : domains) (x : Var) : nat :=
  match dict_get Var_eq_dec doms x with
  | Some d => List.length d
  | None => 0
  end.

Definition degree (x : Var) : nat := List.length (neighbors x).

Definition select_unassigned_variable (doms : domains) (a : assignment) : res Var :=
  let unassigned_vars :=
    filter (fun var => negb (dict_mem Var_eq_dec a var)) (dict_keys doms) in
  let min_remaining_value := sorted_by (dom_size doms) unassigned_vars in
  match min_remaining_value with
  | [] => Raise IndexError
  | v0 :: _ =>
      let min_values := dom_size doms v0 in
      let mrv := filter (fun var => dom_size doms var =? min_values)
                        min_remaining_value in
      if 0 <? List.length mrv then
        let highest_degrees := sorted_by degree mrv in
        match highest_degrees with
        | h :: _ => Ok h
        | [] => Raise IndexError
        end
      else
        match mrv with
        | h :: _ => Ok h
        | [] => Raise IndexError
        end
  end.

(** What a call of [backtrack] leaves behind: the returned value, the state
    of the dict it was passed (callers keep a reference to it), and, as a
    ghost count, how many calls of [backtrack] ran. *)
Record search : Type := mkSearch {
  result : option assignment;
  heap : assignment;
  calls : nat
}.

(** [for val in self.order_domain_values(var, assignment)], with the
    recursive call as [recurse].  [a] is the caller's dict, which the loop
    updates in place; [assignment_copy] is the copy made on entry. *)
Fixpoint backtrack_loop (recurse : assignment -> res search) (doms : domains)
         (var : Var) (vals : list word) (a assignment_copy : assignment) (n : nat)
  : res search :=
  match vals with
  | [] => Ok (mkSearch None a n)
  | val :: vals' =>
      let assignment_copy := dict_set Var_eq_dec assignment_copy var val in
      ok <- consistent assignment_copy ;;
      if ok then
        let a := dict_set Var_eq_dec a var val in
        r <- recurse a ;;
        c <- assignment_complete doms (result r) ;;
        if c then Ok (mkSearch (result r) (heap r) (n + calls r))
        else backtrack_loop recurse doms var vals' (heap r) assignment_copy
                            (n + calls r)
      else backtrack_loop recurse doms var vals' a assignment_copy n
  end.

Fixpoint backtrack (fuel : nat) (doms : domains) (a : assignment) : res search :=
  match fuel with
  | 0 => Timeout
  | S fuel' =>
      let assignment_copy := a in
      c <- assignment_complete doms (Some a) ;;
      if c then Ok (mkSearch (Some a) a 1)
      else
        var <- select_unassigned_variable doms a ;;
        vals <- order_domain_values doms var a ;;
        backtrack_loop (backtrack fuel' doms) doms var vals a assignment_copy 1
  end.

(** [solve]: the value returned, the final Domain Store, and the number of
    calls of [backtrack]. *)
Definition solve (doms : domains) : res (option assignment * domains * nat) :=
  let doms := enforce_node_consistency doms in
  '(_, doms) <- ac3 doms None ;;
  r <- backtrack (S (List.length doms)) doms [] ;;
  Ok (result r, doms, calls r).

End CrosswordCreator.

(** ** Properties of Domain Stores *)

(** Every word of every domain has the length of its variable. *)
Definition node_consistent (doms : domains) : Prop :=
  forall var vals, In (var, vals) doms ->
  forall w, In w vals -> String.length w = var_length var.

(** [doms'] has the keys of [doms], in the same order, and each of its
    domains is the old one with some words removed. *)
Definition narrows (doms doms' : domains) : Prop :=
  Forall2 (fun e e' => fst e' = fst e /\ exists keep, snd e' = filter keep (snd e))
          doms doms'.

(** ** What the claims talk about *)

(** [x_val] and [y_val] disagree at the overlap indices. *)
Definition conflict (x_val : word) (i : nat) (y_val : word) (j : nat) : bool :=
  match String.get i x_val, String.get j y_val with
  | Some a, Some b => if ascii_dec a b then false else true
  | _, _ => false
  end.

Section Claims.
Variable variables : list Var.
Variable overlaps : Var -> Var -> option (nat * nat).

(** A well-formed Puzzle Model: an overlap is shared by both variables and
    its indices are positions of their words. *)
Definition well_formed : Prop :=
  forall x y i j, overlaps x y = Some (i, j) ->
    overlaps y x = Some (j, i) /\ i < var_length x /\ j < var_length y.

(** The Domain Store has a set of words for every variable of the puzzle. *)
Definition covers (doms : domains) : Prop :=
  forall v, In v variables -> In v (dict_keys doms).

Definition sets (doms : domains) : Prop :=
  forall var vals, In (var, vals) doms -> NoDup vals.

(** How many values of the neighbor [n] the candidate [x_val] of [var]
    rules out. *)
Definition eliminated_in (doms : domains) (var : Var) (x_val : word) (n : Var) : nat :=
  match overlaps var n, dict_get Var_eq_dec doms n with
  | Some (i, j), Some dn =>
      List.length (filter (fun y_val => conflict x_val i y_val j) dn)
  | _, _ => 0
  end.

(** The same, summed over the neighbors of [var] that are not assigned. *)
Definition eliminated (doms : domains) (var : Var) (a : assignment) (x_val : word) : nat :=
  list_sum (map (fun n => if dict_mem Var_eq_dec a n then 0
                          else eliminated_in doms var x_val n)
                (neighbors variables overlaps var)).

(** The stores reached from [doms0] by node consistency followed by any
    calls of [revise] and [ac3]. *)
Inductive propagated (doms0 : domains) : domains -> Prop :=
| after_node_consistency :
    propagated doms0 (enforce_node_consistency doms0)
| after_revise d x y b d' :
    propagated doms0 d -> revise overlaps d x y = Ok (b, d') ->
    propagated doms0 d'
| after_ac3 d arcs b d' :
    propagated doms0 d -> ac3 variables overlaps d arcs = Ok (b, d') ->
    propagated doms0 d'.

(** [u] is a variable of the store that the assignment leaves open. *)
Definition unassigned (doms : domains) (a : assignment) (u : Var) : Prop :=
  In u (dict_keys doms) /\ dict_mem Var_eq_dec a u = false.

(** The four conditions on a returned assignment. *)
Definition complete (a : assignment) : Prop :=
  forall v, In v variables -> exists w, dict_get Var_eq_dec a v = Some w.

Definition pairwise_distinct (a : assignment) : Prop :=
  forall v1 v2 w1 w2, v1 <> v2 ->
    dict_get Var_eq_dec a v1 = Some w1 -> dict_get Var_eq_dec a v2 = Some w2 ->
    w1 <> w2.

Definition lengths_match (a : assignment) : Prop :=
  forall v w, dict_get Var_eq_dec a v = Some w -> String.length w = var_length v.

Definition overlaps_agree (a : assignment) : Prop :=
  forall x y i j wx wy, x <> y -> overlaps x y = Some (i, j) ->
    dict_get Var_eq_dec a x = Some wx -> dict_get Var_eq_dec a y = Some wy ->
    exists c, String.get i wx = Some c /\ String.get j wy = Some c.

(** Arc consistency of a store: every word of [x] has a compatible word in
    the domain of each neighbor [y]. *)
Definition arc_consistent (doms : domains) : Prop :=
  forall x y i j dx w,
    In x variables -> In y (neighbors variables overlaps x) ->
    overlaps x y = Some (i, j) ->
    dict_get Var_eq_dec doms x = Some dx -> In w dx ->
    exists dy w' c, dict_get Var_eq_dec doms y = Some dy /\ In w' dy /\
                    String.get i w = Some c /\ String.get j w' = Some c.

(** [solve] as the spec words it: a failed AC-3 returns "no solution"
    at once, and [backtrack] is not called. *)
Definition solve_short_circuit (doms : domains)
  : res (option assignment * domains * nat) :=
  let doms := enforce_node_consistency doms in
  '(ok, doms) <- ac3 variables overlaps doms None ;;
  if (ok : bool) then
    r <- backtrack variables overlaps (S (List.length doms)) doms [] ;;
    Ok (result r, doms, calls r)
  else Ok (None, doms, 0).
End Claims.

(** The dict [least_constraining_values] when every word [v] of [l] has
    the count [c v], and a count raised by one at [x]. *)
Definition tab (c : word -> nat) (l : list word) : @dict word nat :=
  map (fun v => (v, c v)) l.

Definition bump (c : word -> nat) (x : word) : word -> nat :=
  fun v => if string_dec v x then c v + 1 else c v.

(** The invariant of the search: the assignment is a dict and passes
    [consistent]. *)
Definition good (overlaps : Var -> Var -> option (nat * nat)) (a : assignment) : Prop :=
  NoDup (dict_keys a) /\ consistent overlaps a = Ok true.

(** How many variables of the store the assignment leaves open. *)
Definition open_count (doms : domains) (a : assignment) : nat :=
  List.length (filter (fun var => negb (dict_mem Var_eq_dec a var)) (dict_keys doms)).

(** ** Puzzles to run the solver on *)

(** [crossword.overlaps] given as a table. *)
Definition overlap_table (t : list (arc * (nat * nat))) (x y : Var)
  : option (nat * nat) :=
  dict_get arc_eq_dec t (x, y).

(** Every order a set of variables or words can be iterated in. *)
Fixpoint insert_everywhere {A : Type} (a : A) (l : list A) : list (list A) :=
  match l with
  | [] => [[a]]
  | b :: l' => (a :: b :: l') :: map (cons b) (insert_everywhere a l')
  end.

Fixpoint permutations {A : Type} (l : list A) : list (list A) :=
  match l with
  | [] => [[]]
  | a :: l' => flat_map (insert_everywhere a) (permutations l')
  end.

(** Arc consistency as a test. *)
Definition supportedb (overlaps : Var -> Var -> option (nat * nat))
           (doms : domains) (x y : Var) (w : word) : bool :=
  match overlaps x y with
  | Some (i, j) =>
      match dict_get Var_eq_dec doms y with
      | Some dy =>
          existsb (fun w' => match String.get i w, String.get j w' with
                             | Some a, Some b => if ascii_dec a b then true else false
                             | _, _ => false
                             end) dy
      | None => false
      end
  | None => true
  end.

Definition arc_consistentb (variables : list Var)
           (overlaps : Var -> Var -> option (nat * nat)) (doms : domains) : bool :=
  forallb (fun x =>
             match dict_get Var_eq_dec doms x with
             | Some dx =>
                 forallb (fun y => forallb (supportedb overlaps doms x y) dx)
                         (neighbors variables overlaps x)
             | None => true
             end)
          variables.

(** Two slots of lengths 3 and 4 that share their first cell.
<<
      _ _ _
      _
      _
      _
>> *)
Module Corner.
Definition A : Var := mkVar 0 0 ACROSS 3.
Definition B : Var := mkVar 0 0 DOWN 4.
Definition variables : list Var := [A; B].
Definition overlaps : Var -> Var -> option (nat * nat) :=
  overlap_table [((A, B), (0, 0)); ((B, A), (0, 0))].
Definition words_unsolvable : list word := ["CAT"; "DOGS"]%string.
Definition words_solvable : list word := ["CAT"; "COGS"]%string.
End Corner.

(** An across slot with a down slot at each end.
<<
      _ _ _
      _ # _
      _ # _
      # # _
>> *)
Module Hook.
Definition X : Var := mkVar 0 0 ACROSS 3.
Definition Z : Var := mkVar 0 0 DOWN 3.
Definition Y : Var := mkVar 0 2 DOWN 4.
Definition variables : list Var := [X; Y; Z].
Definition overlaps : Var -> Var -> option (nat * nat) :=
  overlap_table [((X, Z), (0, 0)); ((Z, X), (0, 0));
                 ((X, Y), (2, 0)); ((Y, X), (0, 2))].
Definition words : list word :=
  ["CAT"; "DOG"; "DIM"; "TREE"; "TANK"; "TOAD"; "GOAT"]%string.
(** The store after node consistency. *)
Definition doms : domains :=
  [(X, ["CAT"; "DOG"; "DIM"]%string);
   (Y, ["TREE"; "TANK"; "TOAD"; "GOAT"]%string);
   (Z, ["CAT"; "DOG"; "DIM"]%string)].
(** The store after AC-3. *)
Definition doms_ac3 : domains :=
  [(X, ["CAT"; "DOG"]%string);
   (Y, ["TREE"; "TANK"; "TOAD"; "GOAT"]%string);
   (Z, ["CAT"; "DOG"; "DIM"]%string)].
(** A solution of the puzzle. *)
Definition solution : assignment :=
  [(X, "DOG"%string); (Z, "DIM"%string); (Y, "GOAT"%string)].
End Hook.

(** Four slots in a chain W - X - Y - Z.
<<
      # _ _ # # #
      # # _ # # #
      # # _ _ _ _
      # # # # # _
      # # # # # _
      # # # # # _
      # # # # # _
>> *)
Module Chain.
Definition W : Var := mkVar 0 1 ACROSS 2.
Definition X : Var := mkVar 0 2 DOWN 3.
Definition Y : Var := mkVar 2 2 ACROSS 4.
Definition Z : Var := mkVar 2 5 DOWN 5.
Definition variables : list Var := [W; X; Y; Z].
Definition overlaps : Var -> Var -> option (nat * nat) :=
  overlap_table [((W, X), (1, 0)); ((X, W), (0, 1));
                 ((X, Y), (2, 0)); ((Y, X), (0, 2));
                 ((Y, Z), (3, 0)); ((Z, Y), (0, 3))].
Definition words : list word :=
  ["GO"; "US"; "ORB"; "HIM"; "SIR"; "BARK"; "MEAN"; "ROMP"; "KNIFE"; "NIGHT"]%string.
(** The store after node consistency, with the variables in a given order. *)
Definition doms (vs : list Var) : domains :=
  enforce_node_consistency (init_domains vs words).
(** What [ac3] leaves, and the arc-consistent store it should leave. *)
Definition doms_ac3 : domains :=
  [(W, ["GO"; "US"]%string); (X, ["ORB"; "SIR"]%string);
   (Y, ["BARK"]%string); (Z, ["KNIFE"]%string)].
Definition doms_fixpoint : domains :=
  [(W, ["GO"]%string); (X, ["ORB"]%string);
   (Y, ["BARK"]%string); (Z, ["KNIFE"]%string)].
End Chain.

(** ** Further notions used in the properties of the solver *)

(** The words [w] and [w'] have the same letter at the overlap indices. *)
Definition compatible (w : word) (i : nat) (w' : word) (j : nat) : bool :=
  match String.get i w, String.get j w' with
  | Some a, Some b => if ascii_dec a b then true else false
  | _, _ => false
  end.

(** [w] has a compatible word in the domain [dy]. *)
Definition has_support (i j : nat) (dy : list word) (w : word) : bool :=
  existsb (fun w' => compatible w i w' j) dy.

(** The assignment gives every variable of the store a word of its domain. *)
Definition fits (doms : domains) (a : assignment) : Prop :=
  forall v ws, dict_get Var_eq_dec doms v = Some ws ->
  exists w, dict_get Var_eq_dec a v = Some w /\ In w ws.

(** [a'] keeps every word that [a] has assigned. *)
Definition extends (a a' : assignment) : Prop :=
  forall v w, dict_get Var_eq_dec a v = Some w -> dict_get Var_eq_dec a' v = Some w.

(** No arc of the queue joins a variable to itself. *)
Definition proper (arcs : list arc) : Prop :=
  Forall (fun e : arc => fst e <> snd e) arcs.

(** ** letter_grid *)

(** The 2D array of [letter_grid]: None or a letter in every cell. *)
Definition grid := list (list (option ascii)).

(** [l[n] = a] for an index inside the list. *)
Fixpoint list_set {A : Type} (l : list A) (n : nat) (a : A) : list A :=
  match l, n with
  | [], _ => []
  | _ :: t, 0 => a :: t
  | h :: t, S n' => h :: list_set t n' a
  end.

(** [letters[i][j] = c]; IndexError outside the grid. *)
Definition set_cell (letters : grid) (i j : nat) (c : ascii) : res grid :=
  match nth_error letters i with
  | None => Raise IndexError
  | Some row =>
      if j <? List.length row
      then Ok (list_set letters i (list_set row j (Some c)))
      else Raise IndexError
  end.

(** [letters[i][j]], read. *)
Definition get_cell (letters : grid) (i j : nat) : option (option ascii) :=
  match nth_error letters i with
  | Some row => nth_error row j
  | None => None
  end.

(** The cell of the k-th letter of a variable. *)
Definition cell_of (variable : Var) (k : nat) : nat * nat :=
  (var_i variable + match var_direction variable with DOWN => k | ACROSS => 0 end,
   var_j variable + match var_direction variable with ACROSS => k | DOWN => 0 end).

Section LetterGrid.
(** [crossword.width] and [crossword.height]. *)
Variable width height : nat.

Definition blank : grid := repeat (repeat None width) height.

(** The body of [for k in range(len(word))]. *)
Definition letter_body (variable : Var) (word : word) (letters : grid) (k : nat)
  : res grid :=
  let '(i, j) := cell_of variable k in
  c <- index word k ;;
  set_cell letters i j c.

Definition letter_grid (a : assignment) : res grid :=
  foldM (fun letters '(variable, word) =>
           foldM (letter_body variable word) (seq 0 (String.length word)) letters)
        a blank.

(** The grid has [height] rows of [width] cells. *)
Definition well_shaped (g : grid) : Prop :=
  List.length g = height /\ Forall (fun row => List.length row = width) g.
End LetterGrid.

(** The cells that an assignment writes, in the order it writes them, and
    the letter written last in the cell (i, j), if any. *)
Definition writes (a : assignment) : list (nat * nat * option ascii) :=
  flat_map (fun '(variable, word) =>
              map (fun k => (cell_of variable k, String.get k word))
                  (seq 0 (String.length word)))
           a.

Definition last_write (ws : list (nat * nat * option ascii)) (i j : nat)
           (before : option ascii) : option ascii :=
  fold_left (fun cur '(i', j', c) =>
               if (i' =? i) && (j' =? j) then c else cur)
            ws before.

Definition letter_at (a : assignment) (i j : nat) : option ascii :=
  last_write (writes a) i j None.

(** Every write falls inside a grid of the given size. *)
Definition inside (width height : nat) (a : assignment) : Prop :=
  forall i j c, In (i, j, c) (writes a) -> i < height /\ j < width.

(** One write of [letter_grid]. *)
Definition write_cell (g : grid) (w : nat * nat * option ascii) : res grid :=
  let '(i, j, c) := w in
  match c with
  | Some c => set_cell g i j c
  | None => Raise IndexError
  end.

(** Every word of the assignment is a word of the domain of its variable. *)
Definition within (doms : domains) (a : assignment) : Prop :=
  forall v w, dict_get Var_eq_dec a v = Some w ->
  exists ws, dict_get Var_eq_dec doms v = Some ws /\ In w ws.

(** ** print *)

(** [l[n]], read; IndexError outside the list. *)
Definition getlist {A : Type} (l : list A) (n : nat) : res A :=
  match nth_error l n with
  | Some a => Ok a
  | None => Raise IndexError
  end.

(** The literal that line 45 prints for a closed cell, as it stands in the
    source: the three characters U+00E2, U+2013 and U+02C6, held here as the
    seven bytes of their UTF-8 encoding; and the end of a line. *)
Definition block : string := "â–ˆ".

Definition newline : string := String (ascii_of_nat 10) EmptyString.

(** The bytes c3 a2 e2 80 93 cb 86 of line 45, written out one by one. *)
Definition closed_cell : string :=
  string_of_list_ascii
    (map ascii_of_nat [195; 162; 226; 128; 147; 203; 134]).

Section Print.
Variable width height : nat.
(** [crossword.structure]: True for the open cells. *)
Variable structure : list (list bool).

(** What is written for the cell (i, j). *)
Definition print_cell (letters : grid) (i j : nat) : res string :=
  srow <- getlist structure i ;;
  s <- getlist srow j ;;
  if (s : bool) then
    lrow <- getlist letters i ;;
    c <- getlist lrow j ;;
    Ok (match c with
        | Some c => String c EmptyString
        | None => " "%string                (* letters[i][j] or " " *)
        end)
  else Ok block.

(** [print]: the strings written to the terminal, in order. *)
Definition print (a : assignment) : res (list string) :=
  letters <- letter_grid width height a ;;
  foldM (fun out i =>
           out <- foldM (fun out j => s <- print_cell letters i j ;; Ok (out ++ [s]))
                        (seq 0 width) out ;;
           Ok (out ++ [newline]))
        (seq 0 height) [].

(** The picture of an assignment: per cell the bytes of line 45 if it is
    closed, else a blank or the letter written last; and a line end after
    every row. *)
Definition glyph (a : assignment) (i j : nat) : string :=
  if nth j (nth i structure []) false then
    match letter_at a i j with
    | Some c => String c EmptyString
    | None => " "%string
    end
  else closed_cell.

Definition rendering (a : assignment) : list string :=
  flat_map (fun i => map (glyph a i) (seq 0 width) ++ [newline]) (seq 0 height).

(** The structure has [height] rows of [width] cells. *)
Definition structure_shaped : Prop :=
  List.length structure = height
  /\ Forall (fun row => List.length row = width) structure.
End Print.

(** ** What a run of ac3 over all the arcs does *)

Section Propagation.
Variable variables : list Var.
Variable overlaps : Var -> Var -> option (nat * nat).

(** The word [w] of [x] has a compatible word in the domain that [y] has in
    the store [doms]. *)
Definition supported_in (doms : domains) (x y : Var) (w : word) : Prop :=
  exists i j dy w',
    overlaps x y = Some (i, j) /\ dict_get Var_eq_dec doms y = Some dy
    /\ In w' dy /\ compatible w i w' j = true.

(** Every arc (variable, neighbor) of the store [doms] has been revised on
    the way to [doms']: each word left to a variable has a compatible word
    in the domain each of its neighbors had in [doms]. *)
Definition propagated_from (doms doms' : domains) : Prop :=
  forall x y dx w,
    In x (dict_keys doms) -> In y (neighbors variables overlaps x) ->
    dict_get Var_eq_dec doms' x = Some dx -> In w dx ->
    supported_in doms x y w.
End Propagation.

(** * Facts *)

(** ** The error monad *)

Lemma bind_Ok {A B : Type} (m : res A) (k : A -> res B) (b : B) :
  bind m k = Ok b -> exists a, m = Ok a /\ k a = Ok b.
Proof. destruct m as [a| |]; simpl; intros H; try discriminate. now exists a. Qed.

Lemma bind_Ok_intro {A B : Type} (m : res A) (k : A -> res B) (a : A) :
  m = Ok a -> bind m k = k a.
Proof. now intros ->. Qed.

Ltac inv_bind H :=
  let a := fresh "a" in
  let Ha := fresh "Ha" in
  apply bind_Ok in H; destruct H as (a & Ha & H).

Lemma getitem_Ok {K V : Type} (dec : forall a b : K, {a = b} + {a <> b})
      (d : @dict K V) (k : K) (v : V) :
  getitem dec d k = Ok v <-> dict_get dec d k = Some v.
Proof.
  unfold getitem. destruct (dict_get dec d k); split; intros H;
    try discriminate; congruence.
Qed.

Lemma foldM_inv {S A : Type} (P : S -> Prop) (f : S -> A -> res S) (l : list A) :
  (forall s a s', In a l -> P s -> f s a = Ok s' -> P s') ->
  forall s s', P s -> foldM f l s = Ok s' -> P s'.
Proof.
  induction l as [|a l IH]; simpl; intros Hf s s' Hs H.
  - now inversion H; subst.
  - inv_bind H. eapply IH; [ | | exact H]; eauto.
Qed.

Lemma allM_true {A : Type} (p : A -> res bool) (l : list A) :
  allM p l = Ok true -> forall a, In a l -> p a = Ok true.
Proof.
  induction l as [|b l IH]; simpl; intros H a Ha; [easy|].
  inv_bind H. destruct a0; [|discriminate].
  destruct Ha as [<-|Ha]; auto.
Qed.

Lemma bind_not_Timeout {A B : Type} (m : res A) (k : A -> res B) :
  m <> Timeout -> (forall a, k a <> Timeout) -> bind m k <> Timeout.
Proof. destruct m; simpl; intros Hm Hk; [apply Hk | discriminate | contradiction]. Qed.

Lemma foldM_not_Timeout {S A : Type} (f : S -> A -> res S) (l : list A) :
  (forall s a, f s a <> Timeout) -> forall s, foldM f l s <> Timeout.
Proof.
  intros Hf. induction l as [|a l IH]; intros s; simpl; [discriminate|].
  apply bind_not_Timeout; auto.
Qed.

Lemma anyM_not_Timeout {A : Type} (p : A -> res bool) (l : list A) :
  (forall a, p a <> Timeout) -> anyM p l <> Timeout.
Proof.
  intros Hp. induction l as [|a l IH]; simpl; [discriminate|].
  apply bind_not_Timeout; [apply Hp|]. intros [|]; [discriminate|exact IH].
Qed.

Lemma allM_not_Timeout {A : Type} (p : A -> res bool) (l : list A) :
  (forall a, p a <> Timeout) -> allM p l <> Timeout.
Proof.
  intros Hp. induction l as [|a l IH]; simpl; [discriminate|].
  apply bind_not_Timeout; [apply Hp|]. intros [|]; [exact IH|discriminate].
Qed.

Lemma getitem_not_Timeout {K V : Type} (dec : forall a b : K, {a = b} + {a <> b})
      (d : @dict K V) (k : K) :
  getitem dec d k <> Timeout.
Proof. unfold getitem. destruct (dict_get dec d k); discriminate. Qed.

Lemma unpack_not_Timeout (o : option (nat * nat)) : unpack o <> Timeout.
Proof. destruct o; discriminate. Qed.

Lemma index_not_Timeout (w : word) (i : nat) : index w i <> Timeout.
Proof. unfold index. destruct (get i w); discriminate. Qed.

Lemma eq_at_not_Timeout (a : word) (i : nat) (b : word) (j : nat) :
  eq_at a i b j <> Timeout.
Proof.
  unfold eq_at. apply bind_not_Timeout; [apply index_not_Timeout|]. intros ca.
  apply bind_not_Timeout; [apply index_not_Timeout|]. discriminate.
Qed.

Lemma ne_at_not_Timeout (a : word) (i : nat) (b : word) (j : nat) :
  ne_at a i b j <> Timeout.
Proof.
  unfold ne_at. apply bind_not_Timeout; [apply index_not_Timeout|]. intros ca.
  apply bind_not_Timeout; [apply index_not_Timeout|]. discriminate.
Qed.

(** ** Dicts *)

Section DictFacts.
Context {K V : Type}.
Variable dec : forall a b : K, {a = b} + {a <> b}.
Implicit Types (d : @dict K V) (k : K) (v : V).

Lemma dict_get_set_eq d k v : dict_get dec (dict_set dec d k v) k = Some v.
Proof.
  induction d as [|[k' v'] d IH]; simpl.
  - now destruct (dec k k).
  - destruct (dec k k') as [->|Hn]; simpl.
    + now destruct (dec k' k').
    + now destruct (dec k k').
Qed.

Lemma dict_get_set_neq d k k' v :
  k <> k' -> dict_get dec (dict_set dec d k v) k' = dict_get dec d k'.
Proof.
  intros Hn. induction d as [|[k0 v0] d IH]; simpl.
  - destruct (dec k' k); congruence.
  - destruct (dec k k0) as [->|H0]; simpl.
    + destruct (dec k' k0); congruence.
    + destruct (dec k' k0); congruence.
Qed.

Lemma dict_get_In d k v : dict_get dec d k = Some v -> In (k, v) d.
Proof.
  induction d as [|[k' v'] d IH]; simpl; [discriminate|].
  destruct (dec k k') as [->|Hn]; intros H.
  - left. congruence.
  - right. auto.
Qed.

Lemma dict_get_None d k : dict_get dec d k = None <-> ~ In k (dict_keys d).
Proof.
  induction d as [|[k' v'] d IH]; simpl; [tauto|].
  destruct (dec k k') as [->|Hn].
  - split; [discriminate|]. intros H. exfalso. apply H. now left.
  - rewrite IH. split; intros H; [intros [E|E]; [congruence|tauto] | tauto].
Qed.

Lemma dict_get_Some_key d k v : dict_get dec d k = Some v -> In k (dict_keys d).
Proof. intros H. apply dict_get_In in H. apply (in_map fst) in H. exact H. Qed.

Lemma dict_key_get d k : In k (dict_keys d) -> exists v, dict_get dec d k = Some v.
Proof.
  intros H. destruct (dict_get dec d k) eqn:E; [eauto|].
  apply dict_get_None in E. contradiction.
Qed.

Lemma In_dict_get d k v :
  NoDup (dict_keys d) -> In (k, v) d -> dict_get dec d k = Some v.
Proof.
  induction d as [|[k' v'] d IH]; simpl; [easy|].
  intros Hnd [E|Hin].
  - inversion E; subst. now destruct (dec k k).
  - inversion Hnd; subst. destruct (dec k k') as [->|Hn]; [|auto].
    exfalso. apply H1. apply (in_map fst) in Hin. exact Hin.
Qed.

Lemma dict_mem_true d k : dict_mem dec d k = true <-> In k (dict_keys d).
Proof.
  unfold dict_mem. destruct (dict_get dec d k) eqn:E.
  - split; [intros _; eapply dict_get_Some_key; eauto | reflexivity].
  - apply dict_get_None in E. split; [discriminate | contradiction].
Qed.

Lemma dict_mem_false d k : dict_mem dec d k = false <-> ~ In k (dict_keys d).
Proof.
  rewrite <- dict_mem_true. destruct (dict_mem dec d k); split; congruence.
Qed.

Lemma dict_keys_set_old d k v :
  In k (dict_keys d) -> dict_keys (dict_set dec d k v) = dict_keys d.
Proof.
  induction d as [|[k' v'] d IH]; simpl; [easy|].
  intros H. destruct (dec k k') as [->|Hn]; simpl; [reflexivity|].
  f_equal. apply IH. destruct H; congruence.
Qed.

Lemma dict_keys_set_new d k v :
  ~ In k (dict_keys d) -> dict_keys (dict_set dec d k v) = dict_keys d ++ [k].
Proof.
  induction d as [|[k' v'] d IH]; simpl; [reflexivity|].
  intros H. destruct (dec k k') as [->|Hn]; simpl; [tauto|].
  f_equal. apply IH. tauto.
Qed.

Lemma dict_keys_set_incl d k v k' :
  In k' (dict_keys (dict_set dec d k v)) <-> k' = k \/ In k' (dict_keys d).
Proof.
  destruct (in_dec dec k (dict_keys d)) as [Hin|Hnin].
  - rewrite dict_keys_set_old by assumption. split; [tauto|].
    intros [->|H]; assumption.
  - rewrite dict_keys_set_new by assumption. rewrite in_app_iff. simpl.
    split; intros H; intuition congruence.
Qed.

Lemma dict_set_NoDup d k v :
  NoDup (dict_keys d) -> NoDup (dict_keys (dict_set dec d k v)).
Proof.
  intros Hnd. destruct (in_dec dec k (dict_keys d)) as [Hin|Hnin].
  - now rewrite dict_keys_set_old.
  - rewrite dict_keys_set_new by assumption.
    apply NoDup_app; [assumption | repeat constructor; easy | ].
    intros a Ha [<-|[]]. contradiction.
Qed.

Lemma dict_set_length_old d k v :
  In k (dict_keys d) -> List.length (dict_set dec d k v) = List.length d.
Proof.
  intros H. apply dict_keys_set_old with (v := v) in H.
  apply (f_equal (@List.length K)) in H. unfold dict_keys in H.
  now rewrite !length_map in H.
Qed.
End DictFacts.

(** ** The stable sort *)

Section SortedFacts.
Context {A : Type}.
Variable key : A -> nat.

Lemma insert_by_perm (a : A) (l : list A) :
  Permutation (insert_by key a l) (a :: l).
Proof.
  induction l as [|b l IH]; simpl; [reflexivity|].
  destruct (key a <=? key b); [reflexivity|].
  rewrite IH. apply perm_swap.
Qed.

Lemma sorted_by_perm (l : list A) : Permutation (sorted_by key l) l.
Proof.
  induction l as [|a l IH]; simpl; [reflexivity|].
  rewrite insert_by_perm. now constructor.
Qed.

Lemma insert_by_sorted (a : A) (l : list A) :
  StronglySorted (key_le key) l -> StronglySorted (key_le key) (insert_by key a l).
Proof.
  induction l as [|b l IH]; simpl; intros Hs.
  - repeat constructor.
  - inversion Hs as [|? ? Hl Hb]; subst.
    destruct (key a <=? key b) eqn:E.
    + apply Nat.leb_le in E. constructor; [assumption|].
      constructor; [exact E|].
      eapply Forall_impl; [|exact Hb]. unfold key_le. intros; lia.
    + apply Nat.leb_gt in E. constructor; [auto|].
      eapply Permutation_Forall; [symmetry; apply insert_by_perm|].
      constructor; [unfold key_le; lia | assumption].
Qed.

Lemma sorted_by_sorted (l : list A) : StronglySorted (key_le key) (sorted_by key l).
Proof.
  induction l as [|a l IH]; simpl; [constructor|].
  now apply insert_by_sorted.
Qed.

Lemma sorted_by_In (l : list A) (a : A) : In a (sorted_by key l) <-> In a l.
Proof.
  split; apply Permutation_in; [|symmetry]; apply sorted_by_perm.
Qed.

(** The first element of the sorted list has the least key. *)
Lemma sorted_by_head (l : list A) (h : A) (t : list A) :
  sorted_by key l = h :: t -> In h l /\ forall a, In a l -> key h <= key a.
Proof.
  intros E. split.
  - apply sorted_by_In. rewrite E. now left.
  - intros a Ha. apply sorted_by_In in Ha. rewrite E in Ha.
    pose proof (sorted_by_sorted l) as Hs. rewrite E in Hs.
    inversion Hs as [|? ? _ Hall]; subst.
    destruct Ha as [<-|Ha]; [lia|].
    rewrite Forall_forall in Hall. now apply Hall.
Qed.

Lemma sorted_by_nil (l : list A) : sorted_by key l = [] -> l = [].
Proof.
  intros E. pose proof (sorted_by_perm l) as P. rewrite E in P.
  now apply Permutation_nil in P.
Qed.
End SortedFacts.

(** ** Narrowing of the Domain Store *)

Lemma filter_length_lt {A : Type} (f : A -> bool) (l : list A) (a : A) :
  In a l -> f a = false -> List.length (filter f l) < List.length l.
Proof.
  induction l as [|b l IH]; simpl; [easy|].
  intros [->|Hin] Hf.
  - rewrite Hf. pose proof (filter_length_le f l). lia.
  - specialize (IH Hin Hf). destruct (f b); simpl; lia.
Qed.

Lemma filter_filter {A : Type} (f g : A -> bool) (l : list A) :
  filter f (filter g l) = filter (fun a => g a && f a) l.
Proof.
  induction l as [|a l IH]; simpl; [reflexivity|].
  destruct (g a); simpl; [destruct (f a)|]; now rewrite IH.
Qed.

Lemma filter_all {A : Type} (l : list A) : l = filter (fun _ => true) l.
Proof. induction l; simpl; congruence. Qed.

Lemma narrows_refl (d : domains) : narrows d d.
Proof.
  induction d as [|e d IH]; constructor; [|exact IH].
  split; [reflexivity|]. exists (fun _ => true). apply filter_all.
Qed.

Lemma narrows_trans (d1 d2 d3 : domains) :
  narrows d1 d2 -> narrows d2 d3 -> narrows d1 d3.
Proof.
  intros H12. revert d3. induction H12 as [|e1 e2 d1 d2 [Hk [f Hf]] _ IH];
    intros d3 H23; inversion H23 as [|? e3 ? d3' [Hk' [g Hg]] Hr]; subst;
    constructor; [|now apply IH].
  split; [congruence|]. exists (fun a => f a && g a).
  rewrite Hg, Hf. apply filter_filter.
Qed.

Lemma narrows_keys (d d' : domains) : narrows d d' -> dict_keys d' = dict_keys d.
Proof.
  induction 1 as [|e e' d d' [Hk _] _ IH]; simpl; [reflexivity|]. now f_equal.
Qed.

Lemma narrows_get (d d' : domains) (x : Var) (ws' : list word) :
  narrows d d' -> dict_get Var_eq_dec d' x = Some ws' ->
  exists ws keep, dict_get Var_eq_dec d x = Some ws /\ ws' = filter keep ws.
Proof.
  induction 1 as [|[k v] [k' v'] d d' [Hk [f Hf]] _ IH]; simpl; [discriminate|].
  simpl in Hk, Hf. subst k'. destruct (Var_eq_dec x k); [|exact IH].
  intros E. inversion E; subst. now exists v, f.
Qed.

Lemma narrows_get_fwd (d d' : domains) (x : Var) (ws : list word) :
  narrows d d' -> dict_get Var_eq_dec d x = Some ws ->
  exists keep, dict_get Var_eq_dec d' x = Some (filter keep ws).
Proof.
  induction 1 as [|[k v] [k' v'] d d' [Hk [f Hf]] _ IH]; simpl; [discriminate|].
  simpl in Hk, Hf. subst k'. destruct (Var_eq_dec x k); [|exact IH].
  intros E. inversion E; subst. now exists f.
Qed.

Lemma narrows_set (d : domains) (x : Var) (old : list word) (keep : word -> bool) :
  dict_get Var_eq_dec d x = Some old ->
  narrows d (dict_set Var_eq_dec d x (filter keep old)).
Proof.
  induction d as [|[k v] d IH]; simpl; [discriminate|].
  destruct (Var_eq_dec x k) as [->|Hn]; intros E.
  - inversion E; subst. constructor; [|apply narrows_refl].
    split; [reflexivity|]. now exists keep.
  - constructor; [|exact (IH E)]. split; [reflexivity|].
    exists (fun _ => true). apply filter_all.
Qed.

Lemma narrows_node_consistent (d d' : domains) :
  narrows d d' -> node_consistent d -> node_consistent d'.
Proof.
  induction 1 as [|[k v] [k' v'] d d' [Hk [f Hf]] _ IH]; intros Hd; [exact Hd|].
  simpl in Hk, Hf. subst. intros var vals [E|Hin] w Hw.
  - inversion E; subst. apply filter_In in Hw. eapply Hd; [now left | apply Hw].
  - eapply IH; eauto. intros var' vals' H'. eapply Hd. now right.
Qed.

Lemma narrows_total_size (d d' : domains) :
  narrows d d' -> total_size d' <= total_size d.
Proof.
  unfold total_size.
  induction 1 as [|[k v] [k' v'] d d' [Hk [f Hf]] _ IH]; simpl; [lia|].
  simpl in Hf. subst v'. pose proof (filter_length_le f v). lia.
Qed.

Lemma narrows_incl (d d' : domains) (x : Var) (ws' : list word) :
  narrows d d' -> dict_get Var_eq_dec d' x = Some ws' ->
  exists ws, dict_get Var_eq_dec d x = Some ws /\ incl ws' ws.
Proof.
  intros Hn Hg. destruct (narrows_get _ Hn Hg) as (ws & keep & Hws & ->).
  exists ws. split; [assumption|]. apply incl_filter.
Qed.

Lemma total_size_set (d : domains) (x : Var) (old new : list word) :
  dict_get Var_eq_dec d x = Some old ->
  total_size (dict_set Var_eq_dec d x new) + List.length old
  = total_size d + List.length new.
Proof.
  unfold total_size. induction d as [|[k v] d IH]; simpl; [discriminate|].
  destruct (Var_eq_dec x k) as [->|Hn]; intros E; simpl.
  - inversion E; subst. lia.
  - specialize (IH E). lia.
Qed.

Lemma enforce_node_consistency_narrows (d : domains) :
  narrows d (enforce_node_consistency d).
Proof.
  induction d as [|[k v] d IH]; simpl; constructor; [|exact IH].
  split; [reflexivity|]. simpl. eauto.
Qed.

Lemma enforce_node_consistency_ok (d : domains) :
  node_consistent (enforce_node_consistency d).
Proof.
  intros var vals Hin w Hw. unfold enforce_node_consistency in Hin.
  apply in_map_iff in Hin. destruct Hin as ([k v] & E & _).
  inversion E; subst. apply filter_In in Hw. destruct Hw as [_ Hw].
  now apply Nat.eqb_eq in Hw.
Qed.

(** ** revise and ac3 only remove words *)

Section PropagationFacts.
Variable variables : list Var.
Variable overlaps : Var -> Var -> option (nat * nat).

Lemma set_remove_filter (w : word) (s : list word) :
  set_remove w s = filter (fun v => if string_dec v w then false else true) s.
Proof. reflexivity. Qed.

(** What one call of [revise] does to the store: it narrows it, leaves it
    untouched when it answers False, and makes it smaller when it answers
    True. *)
Lemma revise_narrows (d d' : domains) (x y : Var) (b : bool) :
  revise overlaps d x y = Ok (b, d') ->
  narrows d d' /\ (b = false -> d' = d) /\ (b = true -> total_size d' < total_size d).
Proof.
  unfold revise. intros H. inv_bind H. destruct a as [i j].
  inv_bind H. rename a into dx. apply getitem_Ok in Ha0.
  revert H.
  apply (foldM_inv
           (fun st : bool * domains =>
              narrows d (snd st) /\ (fst st = false -> snd st = d)
              /\ (fst st = true -> total_size (snd st) < total_size d))
           (revise_body d x y i j) dx); simpl.
  - intros [rev cur] x_val [rev' cur'] Hin (Hn & Hf & Ht) Hb. simpl in *.
    inv_bind Hb. inv_bind Hb. destruct a0.
    + inversion Hb; subst. auto.
    + inv_bind Hb. inversion Hb; subst. simpl. apply getitem_Ok in Ha3.
      split; [|split; [discriminate|intros _]].
      * eapply narrows_trans; [exact Hn|]. now apply narrows_set.
      * pose proof (total_size_set cur x (set_remove x_val a0) Ha3) as Hs.
        destruct rev.
        -- specialize (Ht eq_refl).
           assert (List.length (set_remove x_val a0) <= List.length a0)
             by apply filter_length_le.
           lia.
        -- specialize (Hf eq_refl). subst cur.
           assert (a0 = dx) by congruence. subst a0.
           assert (List.length (set_remove x_val dx) < List.length dx).
           { apply filter_length_lt with (a := x_val); [assumption|].
             now destruct (string_dec x_val x_val). }
           lia.
  - split; [apply narrows_refl|]. split; [reflexivity|discriminate].
Qed.

Lemma enqueue_length (x : Var) (ns : list Var) (arcs : list arc) :
  List.length (fold_left (enqueue x) ns arcs) <= List.length arcs + List.length ns.
Proof.
  revert arcs. induction ns as [|n ns IH]; intros arcs; simpl; [lia|].
  specialize (IH (enqueue x arcs n)). unfold enqueue in *.
  destruct (in_dec arc_eq_dec (x, n) arcs); [lia|].
  rewrite length_app in IH. simpl in IH. lia.
Qed.

Lemma neighbors_length (x : Var) :
  List.length (neighbors variables overlaps x) <= List.length variables.
Proof. apply filter_length_le. Qed.

Lemma ac3_step_spec (d : domains) (arcs : list arc) (st : ac3_state) :
  ac3_step variables overlaps d arcs = Ok st ->
  match st with
  | Return b d' =>
      narrows d d' /\ (b = false -> exists x, dict_get Var_eq_dec d' x = Some [])
  | Continue d' arcs' =>
      narrows d d' /\ ac3_measure variables d' arcs' < ac3_measure variables d arcs
  end.
Proof.
  unfold ac3_step. destruct arcs as [|[x y] arcs].
  - intros H. inversion H; subst. split; [apply narrows_refl|discriminate].
  - intros H. inv_bind H. destruct a as [revised d1].
    apply revise_narrows in Ha. destruct Ha as (Hn & Hf & Ht).
    destruct revised.
    + inv_bind H. apply getitem_Ok in Ha.
      destruct (List.length a =? 0) eqn:E; inversion H; subst.
      * split; [assumption|]. intros _. exists x.
        apply Nat.eqb_eq in E. destruct a; [assumption|discriminate].
      * split; [assumption|]. specialize (Ht eq_refl). unfold ac3_measure.
        pose proof (enqueue_length x
                      (filter (fun n => if Var_eq_dec n y then false else true)
                              (neighbors variables overlaps x)) arcs) as Hq.
        pose proof (filter_length_le
                      (fun n => if Var_eq_dec n y then false else true)
                      (neighbors variables overlaps x)) as Hl.
        pose proof (neighbors_length x). simpl List.length. nia.
    + inversion H; subst. split; [assumption|].
      rewrite (Hf eq_refl). unfold ac3_measure. simpl. lia.
Qed.

Lemma ac3_loop_narrows (fuel : nat) :
  forall (d : domains) (arcs : list arc) (b : bool) (d' : domains),
    ac3_loop variables overlaps fuel d arcs = Ok (b, d') ->
    narrows d d' /\ (b = false -> exists x, dict_get Var_eq_dec d' x = Some []).
Proof.
  induction fuel as [|fuel IH]; simpl; intros d arcs b d' H; [discriminate|].
  inv_bind H. apply ac3_step_spec in Ha. destruct a as [b1 d1|d1 arcs1].
  - inversion H; subst. exact Ha.
  - destruct Ha as [Hn _]. apply IH in H. destruct H as [Hn' He].
    split; [eapply narrows_trans; eauto | exact He].
Qed.

Lemma revise_not_Timeout (d : domains) (x y : Var) :
  revise overlaps d x y <> Timeout.
Proof.
  unfold revise. apply bind_not_Timeout; [apply unpack_not_Timeout|].
  intros [i j]. apply bind_not_Timeout; [apply getitem_not_Timeout|].
  intros dx. apply foldM_not_Timeout. intros [rev cur] x_val.
  unfold revise_body. apply bind_not_Timeout; [apply getitem_not_Timeout|].
  intros dy. apply bind_not_Timeout.
  - apply anyM_not_Timeout. intros y_val. apply eq_at_not_Timeout.
  - intros [|]; [discriminate|].
    apply bind_not_Timeout; [apply getitem_not_Timeout|]. discriminate.
Qed.

Lemma ac3_step_not_Timeout (d : domains) (arcs : list arc) :
  ac3_step variables overlaps d arcs <> Timeout.
Proof.
  unfold ac3_step. destruct arcs as [|[x y] arcs]; [discriminate|].
  apply bind_not_Timeout; [apply revise_not_Timeout|].
  intros [[|] d1]; [|discriminate].
  apply bind_not_Timeout; [apply getitem_not_Timeout|].
  intros dx. destruct (List.length dx =? 0); discriminate.
Qed.

(** The loop of [ac3] ends within the fuel it is given. *)
Lemma ac3_loop_terminates (fuel : nat) :
  forall (d : domains) (arcs : list arc),
    ac3_measure variables d arcs < fuel ->
    ac3_loop variables overlaps fuel d arcs <> Timeout.
Proof.
  induction fuel as [|fuel IH]; intros d arcs Hm; [lia|]. simpl.
  destruct (ac3_step variables overlaps d arcs) as [st| |] eqn:E; simpl;
    try discriminate.
  - pose proof (ac3_step_spec _ _ E) as Hs. destruct st as [b d1|d1 arcs1].
    + discriminate.
    + apply IH. lia.
  - now apply ac3_step_not_Timeout in E.
Qed.

Lemma ac3_terminates (d : domains) (arcs : option (list arc)) :
  ac3 variables overlaps d arcs <> Timeout.
Proof.
  unfold ac3. apply ac3_loop_terminates. unfold ac3_fuel, ac3_measure. lia.
Qed.

Lemma ac3_narrows (d d' : domains) (arcs : option (list arc)) (b : bool) :
  ac3 variables overlaps d arcs = Ok (b, d') ->
  narrows d d' /\ (b = false -> exists x, dict_get Var_eq_dec d' x = Some []).
Proof. unfold ac3. apply ac3_loop_narrows. Qed.
End PropagationFacts.

(** ** order_domain_values *)

Lemma get_Some (w : string) (i : nat) :
  i < String.length w -> exists c, String.get i w = Some c.
Proof.
  revert i. induction w as [|a w IH]; simpl; intros i Hi; [lia|].
  destruct i as [|i]; [eauto|]. apply IH. lia.
Qed.

Lemma ne_at_conflict (x : word) (i : nat) (y : word) (j : nat) :
  i < String.length x -> j < String.length y ->
  ne_at x i y j = Ok (conflict x i y j).
Proof.
  intros Hi Hj. destruct (get_Some x Hi) as [a Ha], (get_Some y Hj) as [b Hb].
  unfold ne_at, conflict, index. now rewrite Ha, Hb.
Qed.

Lemma dict_set_new_app {K V : Type} (dec : forall a b : K, {a = b} + {a <> b})
      (d : @dict K V) (k : K) (v : V) :
  ~ In k (dict_keys d) -> dict_set dec d k v = d ++ [(k, v)].
Proof.
  induction d as [|[k' v'] d IH]; simpl; [reflexivity|].
  intros H. destruct (dec k k') as [->|Hn]; [tauto|]. f_equal. apply IH. tauto.
Qed.

Lemma tab_keys (c : word -> nat) (l : list word) : dict_keys (tab c l) = l.
Proof. unfold dict_keys, tab. rewrite map_map. simpl. apply map_id. Qed.

Lemma lcv_init_app (l : list word) :
  forall acc : @dict word nat,
    NoDup (dict_keys acc ++ l) ->
    fold_left (fun d val => dict_set string_dec d val 0) l acc
    = acc ++ tab (fun _ => 0) l.
Proof.
  induction l as [|v l IH]; intros acc Hnd; simpl; [now rewrite app_nil_r|].
  assert (Hv : ~ In v (dict_keys acc)).
  { apply NoDup_remove_2 in Hnd. intros Hin. apply Hnd. apply in_or_app. now left. }
  rewrite dict_set_new_app by exact Hv. rewrite IH.
  - now rewrite <- app_assoc.
  - unfold dict_keys in *. rewrite map_app. simpl. rewrite <- app_assoc. exact Hnd.
Qed.

Lemma lcv_init (l : list word) :
  NoDup l ->
  fold_left (fun d val => dict_set string_dec d val 0) l [] = tab (fun _ => 0) l.
Proof. intros H. now rewrite lcv_init_app. Qed.

Lemma tab_ext (c c' : word -> nat) (l : list word) :
  (forall v, In v l -> c v = c' v) -> tab c l = tab c' l.
Proof. intros H. apply map_ext_in. intros v Hv. now rewrite H. Qed.

Lemma tab_get (c : word -> nat) (l : list word) (x : word) :
  In x l -> dict_get string_dec (tab c l) x = Some (c x).
Proof.
  induction l as [|v l IH]; simpl; [easy|].
  intros H. destruct (string_dec x v) as [->|Hn]; [reflexivity|].
  apply IH. destruct H; congruence.
Qed.

Lemma tab_set (c : word -> nat) (l : list word) (x : word) :
  NoDup l -> In x l ->
  dict_set string_dec (tab c l) x (c x + 1) = tab (bump c x) l.
Proof.
  induction l as [|v l IH]; simpl; [easy|].
  intros Hnd Hin. inversion Hnd as [|? ? Hv Hl]; subst.
  unfold bump at 1. destruct (string_dec x v) as [->|Hn].
  - destruct (string_dec v v); [|congruence]. f_equal.
    apply tab_ext. intros u Hu. unfold bump.
    destruct (string_dec u v); [congruence|reflexivity].
  - destruct (string_dec v x); [congruence|]. f_equal.
    apply IH; [assumption|]. destruct Hin; congruence.
Qed.

Lemma increment_tab (c : word -> nat) (l : list word) (x : word) :
  NoDup l -> In x l -> increment (tab c l) x = Ok (tab (bump c x) l).
Proof.
  intros Hnd Hin. unfold increment, getitem. rewrite tab_get by assumption.
  simpl. now rewrite tab_set.
Qed.

(** The loop over the values of one neighbor, for one candidate [x]. *)
Lemma count_neighbour_values (l : list word) (x : word) (i j : nat) (dn : list word) :
  NoDup l -> In x l -> i < String.length x ->
  (forall y, In y dn -> j < String.length y) ->
  forall c, exists c',
    foldM (fun lcv y_val => ne <- ne_at x i y_val j ;;
                            if ne then increment lcv x else Ok lcv)
          dn (tab c l) = Ok (tab c' l)
    /\ forall v, c' v = c v + (if string_dec v x
                               then List.length (filter (fun y => conflict x i y j) dn)
                               else 0).
Proof.
  intros Hnd Hin Hi. induction dn as [|y dn IH]; intros Hj c; simpl.
  - exists c. split; [reflexivity|]. intros v. destruct (string_dec v x); lia.
  - rewrite ne_at_conflict; [|assumption|apply Hj; now left]. simpl.
    destruct (conflict x i y j) eqn:E.
    + rewrite increment_tab by assumption. simpl.
      destruct (IH (fun y' Hy' => Hj y' (or_intror Hy')) (bump c x)) as (c' & Hc' & Hv).
      exists c'. split; [assumption|]. intros v. rewrite Hv. unfold bump.
      destruct (string_dec v x); simpl; lia.
    + destruct (IH (fun y' Hy' => Hj y' (or_intror Hy')) c) as (c' & Hc' & Hv).
      exists c'. split; assumption.
Qed.

(** The loop over the candidates, for one neighbor. *)
Lemma count_neighbour (doms : domains) (n : Var) (l lx : list word)
      (i j : nat) (dn : list word) :
  NoDup l -> incl lx l -> (forall x, In x lx -> i < String.length x) ->
  dict_get Var_eq_dec doms n = Some dn ->
  (forall y, In y dn -> j < String.length y) ->
  forall c, exists c',
    foldM (fun lcv x_val =>
             dn <- getitem Var_eq_dec doms n ;;
             foldM (fun lcv y_val => ne <- ne_at x_val i y_val j ;;
                                     if ne then increment lcv x_val else Ok lcv)
                   dn lcv)
          lx (tab c l) = Ok (tab c' l)
    /\ forall v, c' v = c v + count_occ string_dec lx v
                              * List.length (filter (fun y => conflict v i y j) dn).
Proof.
  intros Hnd Hincl Hi Hn Hj. induction lx as [|x lx IH]; intros c; simpl.
  - exists c. split; [reflexivity|]. intros; lia.
  - unfold getitem at 1. rewrite Hn. simpl.
    destruct (@count_neighbour_values l x i j dn Hnd (Hincl x (or_introl eq_refl))
                (Hi x (or_introl eq_refl)) Hj c) as (c1 & Hc1 & Hv1).
    rewrite Hc1. simpl.
    destruct IH with (c := c1) as (c' & Hc' & Hv').
    { intros u Hu. apply Hincl. now right. } { intros u Hu. apply Hi. now right. }
    exists c'. split; [assumption|]. intros v. rewrite Hv', Hv1.
    destruct (string_dec x v) as [->|Hne].
    + destruct (string_dec v v); [|congruence]. lia.
    + destruct (string_dec v x); [congruence|]. lia.
Qed.

Lemma count_occ_NoDup_In (l : list word) (v : word) :
  NoDup l -> In v l -> count_occ string_dec l v = 1.
Proof.
  intros Hnd Hin. apply NoDup_count_occ with (decA := string_dec) (x := v) in Hnd.
  apply (count_occ_In string_dec) in Hin. lia.
Qed.

Lemma insert_by_tab (c : word -> nat) (v : word) (s : list word) :
  insert_by snd (v, c v) (tab c s) = tab c (insert_by c v s).
Proof.
  induction s as [|u s IH]; simpl; [reflexivity|].
  destruct (c v <=? c u); simpl; [reflexivity|]. now rewrite IH.
Qed.

Lemma sorted_by_tab (c : word -> nat) (l : list word) :
  dict_keys (sorted_by snd (tab c l)) = sorted_by c l.
Proof.
  assert (H : sorted_by snd (tab c l) = tab c (sorted_by c l)).
  { induction l as [|v l IH]; simpl; [reflexivity|].
    rewrite IH. apply insert_by_tab. }
  rewrite H. apply tab_keys.
Qed.

Lemma insert_by_ext {A : Type} (c e : A -> nat) (a : A) (l : list A) :
  c a = e a -> (forall v, In v l -> c v = e v) ->
  insert_by c a l = insert_by e a l.
Proof.
  intros Ha. induction l as [|b l IH]; simpl; intros H; [reflexivity|].
  rewrite Ha, (H b) by now left. destruct (e a <=? e b); [reflexivity|].
  f_equal. apply IH. intros v Hv. apply H. now right.
Qed.

Lemma sorted_by_ext {A : Type} (c e : A -> nat) (l : list A) :
  (forall v, In v l -> c v = e v) -> sorted_by c l = sorted_by e l.
Proof.
  induction l as [|a l IH]; simpl; intros H; [reflexivity|].
  rewrite IH by (intros v Hv; apply H; now right).
  apply insert_by_ext; [apply H; now left|].
  intros v Hv. apply H. right. now apply sorted_by_In in Hv.
Qed.

Section OrderFacts.
Variable variables : list Var.
Variable overlaps : Var -> Var -> option (nat * nat).

(** The loop over the neighbors: every candidate ends with the number of
    neighbor values it rules out. *)
Lemma count_neighbours (doms : domains) (var : Var) (a : assignment)
      (dv : list word) (ns : list Var) :
  NoDup dv -> dict_get Var_eq_dec doms var = Some dv ->
  (forall x, In x dv -> String.length x = var_length var) ->
  (forall n, In n ns -> dict_mem Var_eq_dec a n = false ->
     exists i j dn, overlaps var n = Some (i, j) /\ i < var_length var
                    /\ dict_get Var_eq_dec doms n = Some dn
                    /\ forall y, In y dn -> j < String.length y) ->
  forall c, exists c',
    foldM (lcv_body overlaps doms var a) ns (tab c dv) = Ok (tab c' dv)
    /\ forall v, In v dv ->
         c' v = c v + list_sum (map (fun n => if dict_mem Var_eq_dec a n then 0
                                              else eliminated_in overlaps doms var v n)
                                    ns).
Proof.
  intros Hnd Hdv Hlen. induction ns as [|n ns IH]; intros Hns c; simpl.
  - exists c. split; [reflexivity|]. intros; lia.
  - assert (Hns' : forall n', In n' ns -> dict_mem Var_eq_dec a n' = false ->
              exists i j dn, overlaps var n' = Some (i, j) /\ i < var_length var
                             /\ dict_get Var_eq_dec doms n' = Some dn
                             /\ forall y, In y dn -> j < String.length y).
    { intros n' Hn'. apply Hns. now right. }
    unfold lcv_body at 1. destruct (dict_mem Var_eq_dec a n) eqn:Em; simpl.
    + destruct (IH Hns' c) as (c' & Hc' & Hv). exists c'. split; assumption.
    + destruct (Hns n (or_introl eq_refl) Em) as (i & j & dn & Ho & Hi & Hdn & Hj).
      rewrite Ho. simpl. unfold getitem at 1. rewrite Hdv. simpl.
      destruct (@count_neighbour doms n dv dv i j dn Hnd (incl_refl dv)) with (c := c)
        as (c1 & Hc1 & Hv1); auto.
      { intros x Hx. rewrite (Hlen x Hx). exact Hi. }
      rewrite Hc1. simpl. destruct (IH Hns' c1) as (c' & Hc' & Hv).
      exists c'. split; [assumption|]. intros v Hin. rewrite (Hv v Hin), Hv1.
      rewrite count_occ_NoDup_In by assumption.
      unfold eliminated_in. rewrite Ho, Hdn. lia.
Qed.

Hypothesis overlaps_wf : well_formed overlaps.

Lemma neighbors_overlap (var n : Var) :
  In n (neighbors variables overlaps var) ->
  In n variables /\ n <> var /\
  exists i j, overlaps var n = Some (i, j) /\ i < var_length var /\ j < var_length n.
Proof.
  unfold neighbors. rewrite filter_In. intros [Hin H].
  destruct (Var_eq_dec n var) as [|Hne]; [discriminate|].
  destruct (overlaps n var) as [[j i]|] eqn:E; [|discriminate].
  destruct (overlaps_wf E) as (Hs & Hj & Hi). eauto 10.
Qed.

(** The result of [order_domain_values], for a variable that is not
    assigned, in a node-consistent store of sets that covers the puzzle. *)
Lemma order_domain_values_sorted (doms : domains) (var : Var) (a : assignment)
      (dv : list word) :
  dict_mem Var_eq_dec a var = false ->
  dict_get Var_eq_dec doms var = Some dv ->
  covers variables doms -> node_consistent doms -> sets doms ->
  order_domain_values variables overlaps doms var a
  = Ok (sorted_by (eliminated variables overlaps doms var a) dv).
Proof.
  intros Hmem Hdv Hcov Hnc Hsets. unfold order_domain_values.
  rewrite Hmem. unfold getitem. rewrite Hdv. simpl.
  assert (Hnd : NoDup dv) by (eapply Hsets, dict_get_In, Hdv).
  rewrite lcv_init by assumption.
  destruct (@count_neighbours doms var a dv (neighbors variables overlaps var))
    with (c := fun _ : word => 0) as (c' & Hc' & Hv); auto.
  - intros x Hx. eapply Hnc; [eapply dict_get_In, Hdv | exact Hx].
  - intros n Hn _. destruct (neighbors_overlap _ _ Hn) as (Hin & _ & i & j & Ho & Hi & Hj).
    destruct (dict_key_get Var_eq_dec doms n (Hcov n Hin)) as [dn Hdn].
    exists i, j, dn. repeat split; try assumption.
    intros y Hy. rewrite (Hnc n dn (dict_get_In _ _ _ Hdn) y Hy). exact Hj.
  - rewrite Hc'. simpl. rewrite sorted_by_tab. f_equal.
    apply sorted_by_ext. intros v Hin. now rewrite Hv.
Qed.
End OrderFacts.

(** ** select_unassigned_variable *)

Section SelectFacts.
Variable variables : list Var.
Variable overlaps : Var -> Var -> option (nat * nat).

Let select := select_unassigned_variable variables overlaps.
Let deg := degree variables overlaps.

(** What is returned: an unassigned variable with the fewest remaining
    values and, among those, the fewest neighbors. *)
Lemma select_unassigned_variable_spec (doms : domains) (a : assignment) (v : Var) :
  select doms a = Ok v ->
  unassigned doms a v
  /\ (forall u, unassigned doms a u -> dom_size doms v <= dom_size doms u)
  /\ (forall u, unassigned doms a u -> dom_size doms u = dom_size doms v ->
                deg v <= deg u).
Proof.
  unfold select, select_unassigned_variable, unassigned.
  set (un := filter (fun var => negb (dict_mem Var_eq_dec a var)) (dict_keys doms)).
  assert (Hun : forall u, In u un <->
                          In u (dict_keys doms) /\ dict_mem Var_eq_dec a u = false).
  { intros u. unfold un. rewrite filter_In, negb_true_iff. tauto. }
  destruct (sorted_by (dom_size doms) un) as [|v0 rest] eqn:Es; [discriminate|].
  destruct (sorted_by_head _ _ Es) as [Hv0 Hmin].
  set (mrv := filter (fun var => dom_size doms var =? dom_size doms v0) (v0 :: rest)).
  assert (Hmrv : forall u, In u mrv <-> In u un /\ dom_size doms u = dom_size doms v0).
  { intros u. unfold mrv. rewrite filter_In, Nat.eqb_eq, <- Es, sorted_by_In. tauto. }
  assert (H0 : In v0 mrv) by (apply Hmrv; auto).
  destruct mrv as [|m0 mrv'] eqn:Em; [contradiction|]. simpl (0 <? _).
  destruct (sorted_by (degree variables overlaps) (m0 :: mrv')) as [|h t] eqn:Ed;
    [discriminate|].
  intros E. inversion E; subst h. clear E.
  destruct (sorted_by_head _ _ Ed) as [Hv Hdeg].
  apply Hmrv in Hv. destruct Hv as [Hvun Hvsize].
  split; [now apply Hun|]. split.
  - intros u Hu. rewrite Hvsize. apply Hmin. now apply Hun.
  - intros u Hu Hsize. apply Hdeg. apply Hmrv. split; [now apply Hun|congruence].
Qed.

(** A variable is returned as soon as one is unassigned. *)
Lemma select_unassigned_variable_total (doms : domains) (a : assignment) (u : Var) :
  unassigned doms a u -> exists v, select doms a = Ok v.
Proof.
  unfold select, select_unassigned_variable, unassigned. intros [Hk Hm].
  set (un := filter (fun var => negb (dict_mem Var_eq_dec a var)) (dict_keys doms)).
  assert (Hu : In u un) by (unfold un; rewrite filter_In, Hm; auto).
  destruct (sorted_by (dom_size doms) un) as [|v0 rest] eqn:Es.
  - apply sorted_by_nil in Es. rewrite Es in Hu. contradiction.
  - set (mrv := filter (fun var => dom_size doms var =? dom_size doms v0) (v0 :: rest)).
    assert (H0 : In v0 mrv).
    { unfold mrv. rewrite filter_In, Nat.eqb_eq. split; [now left|reflexivity]. }
    destruct mrv as [|m0 mrv'] eqn:Em; [contradiction|]. simpl (0 <? _).
    destruct (sorted_by (degree variables overlaps) (m0 :: mrv')) as [|h t] eqn:Ed.
    + apply sorted_by_nil in Ed. discriminate.
    + exists h. reflexivity.
Qed.
End SelectFacts.

(** ** consistent and backtrack *)

Lemma nodup_length_le (l : list word) :
  List.length (nodup string_dec l) <= List.length l.
Proof.
  induction l as [|a l IH]; simpl; [lia|].
  destruct (in_dec string_dec a l); simpl; lia.
Qed.

Lemma distinct_count_NoDup (l : list word) :
  distinct_count l = List.length l -> NoDup l.
Proof.
  unfold distinct_count. induction l as [|a l IH]; simpl; [constructor|].
  pose proof (nodup_length_le l). destruct (in_dec string_dec a l); simpl; intros E.
  - lia.
  - constructor; [assumption|]. apply IH. lia.
Qed.

Lemma NoDup_map_inj {A B : Type} (f : A -> B) (l : list A) (x y : A) :
  NoDup (map f l) -> In x l -> In y l -> f x = f y -> x = y.
Proof.
  induction l as [|a l IH]; simpl; [easy|].
  intros Hnd Hx Hy E. inversion Hnd as [|? ? Ha Hl]; subst.
  destruct Hx as [->|Hx], Hy as [->|Hy]; auto.
  - exfalso. apply Ha. rewrite E. now apply in_map.
  - exfalso. apply Ha. rewrite <- E. now apply in_map.
Qed.

Lemma dict_set_set {K V : Type} (dec : forall a b : K, {a = b} + {a <> b})
      (d : @dict K V) (k : K) (v1 v2 : V) :
  dict_set dec (dict_set dec d k v1) k v2 = dict_set dec d k v2.
Proof.
  induction d as [|[k' v'] d IH]; simpl.
  - now destruct (dec k k).
  - destruct (dec k k') as [->|Hn]; simpl.
    + now destruct (dec k' k').
    + destruct (dec k k'); [contradiction|]. now rewrite IH.
Qed.

Section SearchFacts.
Variable variables : list Var.
Variable overlaps : Var -> Var -> option (nat * nat).

Lemma consistent_sound (a : assignment) :
  NoDup (dict_keys a) -> consistent overlaps a = Ok true ->
  pairwise_distinct a /\ lengths_match a /\ overlaps_agree overlaps a.
Proof.
  intros Hk. unfold consistent.
  destruct (distinct_count (dict_values a) =? List.length a) eqn:Ed; simpl;
    [|discriminate].
  destruct (forallb (fun '(var, val) => var_length var =? String.length val) a)
    eqn:El; simpl; [|discriminate].
  intros Hall. apply Nat.eqb_eq in Ed.
  assert (Hvals : NoDup (dict_values a)).
  { apply distinct_count_NoDup. unfold dict_values in *. now rewrite length_map. }
  split; [|split].
  - intros v1 v2 w1 w2 Hne H1 H2 Hw. subst w2. apply Hne.
    apply dict_get_In in H1, H2.
    pose proof (NoDup_map_inj snd a (v1, w1) (v2, w1) Hvals H1 H2 eq_refl) as E.
    congruence.
  - intros v w Hg. apply dict_get_In in Hg.
    rewrite forallb_forall in El. specialize (El _ Hg). simpl in El.
    apply Nat.eqb_eq in El. congruence.
  - intros x y i j wx wy Hne Ho Hx Hy.
    pose proof (allM_true _ _ Hall x (dict_get_Some_key _ _ _ Hx)) as Hin.
    pose proof (allM_true _ _ Hin y (dict_get_Some_key _ _ _ Hy)) as Hxy.
    unfold agree in Hxy. destruct (Var_eq_dec x y); [contradiction|].
    rewrite Ho in Hxy. unfold getitem, index in Hxy. rewrite Hx, Hy in Hxy.
    simpl in Hxy. destruct (get i wx) as [cx|]; simpl in Hxy; [|discriminate].
    destruct (get j wy) as [cy|]; simpl in Hxy; [|discriminate].
    destruct (ascii_dec cx cy); [|discriminate]. subst. eauto.
Qed.

(** A failed call makes [assignment_complete] raise, except in a store with
    no variable at all. *)
Lemma assignment_complete_result (doms : domains) (r : option assignment) (c : bool) :
  (forall a', r = Some a' -> assignment_complete doms (Some a') = Ok true) ->
  assignment_complete doms r = Ok c -> c = true.
Proof.
  intros Hr H. destruct r as [a'|].
  - rewrite (Hr a' eq_refl) in H. congruence.
  - simpl in H. destruct (dict_keys doms); congruence.
Qed.

Lemma backtrack_loop_sound (recurse : assignment -> res search) (doms : domains)
      (var : Var) :
  (forall a r a', good overlaps a -> recurse a = Ok r -> result r = Some a' ->
                  good overlaps a' /\ assignment_complete doms (Some a') = Ok true) ->
  forall (vals : list word) (a copy : assignment) (n : nat) (r : search) (a' : assignment),
    NoDup (dict_keys a) ->
    (forall val, dict_set Var_eq_dec copy var val = dict_set Var_eq_dec a var val) ->
    backtrack_loop overlaps recurse doms var vals a copy n = Ok r ->
    result r = Some a' ->
    good overlaps a' /\ assignment_complete doms (Some a') = Ok true.
Proof.
  intros Hrec. induction vals as [|val vals IH]; intros a copy n r a' Hnd Hcopy H Hres.
  - simpl in H. inversion H; subst. discriminate.
  - simpl in H. inv_bind H. destruct a0.
    + inv_bind H. inv_bind H. rename a0 into r1.
      assert (Hgood : good overlaps (dict_set Var_eq_dec a var val)).
      { split; [now apply dict_set_NoDup|]. now rewrite <- Hcopy. }
      assert (a1 = true).
      { eapply assignment_complete_result; [|exact Ha1].
        intros a1' E. eapply Hrec; eauto. }
      subst a1. inversion H; subst. simpl in Hres.
      eapply Hrec; eauto.
    + eapply IH; [exact Hnd| |exact H|exact Hres].
      intros v. rewrite dict_set_set. apply Hcopy.
Qed.

Lemma backtrack_sound (fuel : nat) (doms : domains) :
  forall (a : assignment) (r : search) (a' : assignment),
    good overlaps a -> backtrack variables overlaps fuel doms a = Ok r ->
    result r = Some a' ->
    good overlaps a' /\ assignment_complete doms (Some a') = Ok true.
Proof.
  induction fuel as [|fuel IH]; intros a r a' Hgood H Hres; [discriminate|].
  simpl in H.
  destruct (forallb (fun var => dict_mem Var_eq_dec a var) (dict_keys doms)) eqn:Ec.
  - inversion H; subst. simpl in Hres. inversion Hres; subst.
    split; [assumption|]. simpl. now rewrite Ec.
  - inv_bind H. inv_bind H.
    eapply backtrack_loop_sound; [exact IH|apply Hgood| |exact H|exact Hres].
    reflexivity.
Qed.
End SearchFacts.

(** ** The search ends within its fuel *)

Lemma filter_length_lt2 {A : Type} (f g : A -> bool) (l : list A) (x : A) :
  (forall a, g a = true -> f a = true) ->
  In x l -> f x = true -> g x = false ->
  List.length (filter g l) < List.length (filter f l).
Proof.
  intros Hgf. induction l as [|b l IH]; simpl; [easy|].
  assert (Hle : List.length (filter g l) <= List.length (filter f l)).
  { clear IH. induction l as [|c l IHl]; simpl; [lia|].
    specialize (Hgf c). destruct (g c), (f c); simpl; try lia;
      discriminate Hgf; reflexivity. }
  intros [->|Hin] Hf Hg.
  - rewrite Hf, Hg. simpl. lia.
  - specialize (IH Hin Hf Hg). specialize (Hgf b).
    destruct (g b), (f b); simpl; try lia; discriminate Hgf; reflexivity.
Qed.

Lemma open_count_set (doms : domains) (a : assignment) (var : Var) (val : word) :
  unassigned doms a var ->
  open_count doms (dict_set Var_eq_dec a var val) < open_count doms a.
Proof.
  intros [Hk Hm]. unfold open_count. apply filter_length_lt2 with (x := var).
  - intros u Hu. apply negb_true_iff in Hu. apply negb_true_iff.
    apply dict_mem_false in Hu. apply dict_mem_false. intros Hin. apply Hu.
    apply dict_keys_set_incl. now right.
  - exact Hk.
  - now rewrite Hm.
  - apply negb_false_iff. apply dict_mem_true. apply dict_keys_set_incl. now left.
Qed.

Section TerminationFacts.
Variable variables : list Var.
Variable overlaps : Var -> Var -> option (nat * nat).

Lemma agree_not_Timeout (a : assignment) (x y : Var) : agree overlaps a x y <> Timeout.
Proof.
  unfold agree. destruct (Var_eq_dec x y); [discriminate|].
  destruct (overlaps x y) as [[i j]|]; [|discriminate].
  apply bind_not_Timeout; [apply getitem_not_Timeout|]. intros ax.
  apply bind_not_Timeout; [apply index_not_Timeout|]. intros cx.
  apply bind_not_Timeout; [apply getitem_not_Timeout|]. intros ay.
  apply bind_not_Timeout; [apply index_not_Timeout|]. discriminate.
Qed.

Lemma consistent_not_Timeout (a : assignment) : consistent overlaps a <> Timeout.
Proof.
  unfold consistent.
  destruct (negb (distinct_count (dict_values a) =? List.length a)); [discriminate|].
  destruct (negb (forallb (fun '(var, val) => var_length var =? String.length val) a));
    [discriminate|].
  apply allM_not_Timeout. intros x. apply allM_not_Timeout. intros y.
  apply agree_not_Timeout.
Qed.

Lemma increment_not_Timeout (lcv : @dict word nat) (x : word) :
  increment lcv x <> Timeout.
Proof.
  unfold increment. apply bind_not_Timeout; [apply getitem_not_Timeout|]. discriminate.
Qed.

Lemma order_domain_values_not_Timeout (doms : domains) (var : Var) (a : assignment) :
  order_domain_values variables overlaps doms var a <> Timeout.
Proof.
  unfold order_domain_values. destruct (dict_mem Var_eq_dec a var); [discriminate|].
  apply bind_not_Timeout; [apply getitem_not_Timeout|]. intros dv.
  apply bind_not_Timeout; [|discriminate].
  apply foldM_not_Timeout. intros lcv n. unfold lcv_body.
  destruct (dict_mem Var_eq_dec a n); [discriminate|].
  apply bind_not_Timeout; [apply unpack_not_Timeout|]. intros [i j].
  apply bind_not_Timeout; [apply getitem_not_Timeout|]. intros dx.
  apply foldM_not_Timeout. intros lcv1 x_val.
  apply bind_not_Timeout; [apply getitem_not_Timeout|]. intros dn.
  apply foldM_not_Timeout. intros lcv2 y_val.
  apply bind_not_Timeout; [apply ne_at_not_Timeout|].
  intros [|]; [apply increment_not_Timeout|discriminate].
Qed.

Lemma select_not_Timeout (doms : domains) (a : assignment) :
  select_unassigned_variable variables overlaps doms a <> Timeout.
Proof.
  unfold select_unassigned_variable.
  destruct (sorted_by (dom_size doms) _) as [|v0 rest]; [discriminate|].
  destruct (0 <? _).
  - destruct (sorted_by _ _); discriminate.
  - destruct (filter _ _); discriminate.
Qed.

Lemma assignment_complete_not_Timeout (doms : domains) (r : option assignment) :
  assignment_complete doms r <> Timeout.
Proof. destruct r; simpl; [discriminate|]. destruct (dict_keys doms); discriminate. Qed.

(** Whatever [backtrack] returns other than None is complete. *)
Lemma backtrack_loop_complete (recurse : assignment -> res search) (doms : domains)
      (var : Var) :
  (forall a r a', recurse a = Ok r -> result r = Some a' ->
                  assignment_complete doms (Some a') = Ok true) ->
  forall (vals : list word) (a copy : assignment) (n : nat) (r : search) (a' : assignment),
    backtrack_loop overlaps recurse doms var vals a copy n = Ok r ->
    result r = Some a' -> assignment_complete doms (Some a') = Ok true.
Proof.
  intros Hrec. induction vals as [|val vals IH]; intros a copy n r a' H Hres.
  - simpl in H. inversion H; subst. discriminate.
  - simpl in H. inv_bind H. destruct a0.
    + inv_bind H. inv_bind H.
      assert (a1 = true).
      { eapply assignment_complete_result; [|exact Ha1]. intros; eapply Hrec; eauto. }
      subst a1. inversion H; subst. simpl in Hres. eapply Hrec; eauto.
    + eapply IH; eauto.
Qed.

Lemma backtrack_complete (fuel : nat) (doms : domains) :
  forall (a : assignment) (r : search) (a' : assignment),
    backtrack variables overlaps fuel doms a = Ok r -> result r = Some a' ->
    assignment_complete doms (Some a') = Ok true.
Proof.
  induction fuel as [|fuel IH]; intros a r a' H Hres; [discriminate|].
  simpl in H.
  destruct (forallb (fun var => dict_mem Var_eq_dec a var) (dict_keys doms)) eqn:Ec.
  - inversion H; subst. simpl in Hres. inversion Hres; subst. simpl. now rewrite Ec.
  - inv_bind H. inv_bind H. eapply backtrack_loop_complete; eauto.
Qed.

Lemma backtrack_loop_not_Timeout (recurse : assignment -> res search) (doms : domains)
      (var : Var) (a : assignment) :
  (forall a1 r a', recurse a1 = Ok r -> result r = Some a' ->
                   assignment_complete doms (Some a') = Ok true) ->
  (forall val, recurse (dict_set Var_eq_dec a var val) <> Timeout) ->
  forall (vals : list word) (copy : assignment) (n : nat),
    backtrack_loop overlaps recurse doms var vals a copy n <> Timeout.
Proof.
  intros Hrec Hnt. induction vals as [|val vals IH]; intros copy n; simpl;
    [discriminate|].
  apply bind_not_Timeout; [apply consistent_not_Timeout|]. intros [|]; [|apply IH].
  destruct (recurse (dict_set Var_eq_dec a var val)) as [r| |] eqn:Er; simpl;
    [|discriminate|now apply Hnt in Er].
  destruct (assignment_complete doms (result r)) as [c| |] eqn:Ec; simpl;
    try discriminate; [|now apply assignment_complete_not_Timeout in Ec].
  assert (c = true).
  { eapply assignment_complete_result; [|exact Ec]. intros a' E. eapply Hrec; eauto. }
  subst c. discriminate.
Qed.

Lemma backtrack_not_Timeout (fuel : nat) (doms : domains) :
  forall a : assignment,
    open_count doms a < fuel ->
    backtrack variables overlaps fuel doms a <> Timeout.
Proof.
  induction fuel as [|fuel IH]; intros a Hc; [lia|]. simpl.
  destruct (forallb (fun var => dict_mem Var_eq_dec a var) (dict_keys doms));
    [discriminate|].
  destruct (select_unassigned_variable variables overlaps doms a) as [var| |] eqn:Es;
    simpl; [|discriminate|now apply select_not_Timeout in Es].
  apply select_unassigned_variable_spec in Es. destruct Es as [Hun _].
  destruct (order_domain_values variables overlaps doms var a) as [vals| |] eqn:Eo;
    simpl; [|discriminate|now apply order_domain_values_not_Timeout in Eo].
  apply backtrack_loop_not_Timeout.
  - intros a1 r a'. apply backtrack_complete.
  - intros val. apply IH. pose proof (open_count_set val Hun). lia.
Qed.

(** [solve] always ends: with a value or with a Python exception. *)
Lemma solve_not_Timeout (doms : domains) : solve variables overlaps doms <> Timeout.
Proof.
  unfold solve. apply bind_not_Timeout; [apply ac3_terminates|]. intros [b d].
  apply bind_not_Timeout; [|discriminate]. apply backtrack_not_Timeout.
  unfold open_count, dict_keys.
  pose proof (filter_length_le
                (fun var => negb (dict_mem Var_eq_dec ([] : assignment) var))
                (map fst d)) as H.
  rewrite length_map in H. lia.
Qed.
End TerminationFacts.

(** * The claims *)

Lemma init_domains_keys (variables : list Var) (words : list word) (v : Var) :
  In v variables -> In v (dict_keys (init_domains variables words)).
Proof.
  unfold init_domains.
  assert (H : forall (vs : list Var) (acc : domains),
             In v vs \/ In v (dict_keys acc) ->
             In v (dict_keys (fold_left (fun d var => dict_set Var_eq_dec d var words)
                                        vs acc))).
  { induction vs as [|u vs IH]; intros acc Hin; simpl.
    - destruct Hin as [[]|Hin]. exact Hin.
    - apply IH. destruct Hin as [[->|Hin]|Hin]; auto; right;
        apply dict_keys_set_incl; auto. }
  intros Hin. apply H. now left.
Qed.

(** C1. Search soundness: an assignment returned by [solve] gives a word to
    every variable of the puzzle, the words are pairwise distinct, each has
    the length of its variable, and the words of two variables that overlap
    agree at the overlap indices. *)
Theorem solve_sound (variables : list Var) (words : list word)
        (overlaps : Var -> Var -> option (nat * nat))
        (a : assignment) (doms' : domains) (n : nat) :
  solve variables overlaps (init_domains variables words) = Ok (Some a, doms', n) ->
  complete variables a /\ pairwise_distinct a /\ lengths_match a
  /\ overlaps_agree overlaps a.
Proof.
  unfold solve. intros H. inv_bind H. destruct a0 as [b d]. inv_bind H.
  inversion H; subst. clear H.
  apply ac3_narrows in Ha. destruct Ha as [Hn _].
  assert (Hroot : good overlaps []).
  { split; [constructor|reflexivity]. }
  destruct (@backtrack_sound variables overlaps _ _ _ _ _ Hroot Ha0 H1)
    as [[Hnd Hc] Hall].
  split.
  - intros v Hv. apply dict_key_get. apply (proj1 (dict_mem_true Var_eq_dec a v)).
    simpl in Hall. injection Hall as Hf. rewrite forallb_forall in Hf. apply Hf.
    rewrite (narrows_keys Hn).
    rewrite (narrows_keys (enforce_node_consistency_narrows _)).
    now apply init_domains_keys.
  - now apply consistent_sound.
Qed.

Lemma solve_sound_witness :
  solve Corner.variables Corner.overlaps
        (init_domains Corner.variables Corner.words_solvable)
  = Ok (Some [(Corner.A, "CAT"%string); (Corner.B, "COGS"%string)],
        [(Corner.A, ["CAT"%string]); (Corner.B, ["COGS"%string])], 3)
  /\ complete Corner.variables [(Corner.A, "CAT"%string); (Corner.B, "COGS"%string)].
Proof.
  split; [vm_compute; reflexivity|].
  eapply (@solve_sound Corner.variables Corner.words_solvable Corner.overlaps).
  vm_compute. reflexivity.
Defined.

(** ** The puzzles are well formed *)

Ltac table_cases H :=
  repeat match type of H with
         | context [arc_eq_dec ?a ?b] => destruct (arc_eq_dec a b)
         end.

Lemma Corner_well_formed : well_formed Corner.overlaps.
Proof.
  intros x y i j H. unfold Corner.overlaps, overlap_table in *. cbn [dict_get] in H.
  table_cases H; try discriminate;
    match goal with E : (_, _) = (_, _) |- _ => inversion E; subst end;
    inversion H; subst; vm_compute; repeat split; lia.
Qed.

Lemma Hook_well_formed : well_formed Hook.overlaps.
Proof.
  intros x y i j H. unfold Hook.overlaps, overlap_table in *. cbn [dict_get] in H.
  table_cases H; try discriminate;
    match goal with E : (_, _) = (_, _) |- _ => inversion E; subst end;
    inversion H; subst; vm_compute; repeat split; lia.
Qed.

Ltac list_cases :=
  repeat match goal with
         | H : In _ (_ :: _) |- _ => destruct H as [H|H]; [inversion H; subst|]
         | H : In _ [] |- _ => destruct H
         | H : _ \/ _ |- _ => destruct H as [H|H]; [try (inversion H; subst)|]
         | H : False |- _ => destruct H
         end.

Lemma Hook_doms_ac3_ok :
  covers Hook.variables Hook.doms_ac3 /\ node_consistent Hook.doms_ac3
  /\ sets Hook.doms_ac3.
Proof.
  split; [|split].
  - intros v Hv. unfold Hook.variables in Hv. list_cases; simpl; auto.
  - intros var vals Hin w Hw. unfold Hook.doms_ac3 in Hin. list_cases; reflexivity.
  - intros var vals Hin. unfold Hook.doms_ac3 in Hin.
    list_cases; repeat constructor; simpl; intuition discriminate.
Qed.

(** C8. Domain length invariant: after [enforce_node_consistency] every word
    of every domain has the length of its variable, and every later call of
    [revise] or [ac3] keeps this, because it only removes words from the
    domains. *)
Theorem domain_length_invariant (variables : list Var)
        (overlaps : Var -> Var -> option (nat * nat)) (doms0 d : domains) :
  propagated variables overlaps doms0 d ->
  node_consistent d /\ narrows doms0 d.
Proof.
  induction 1 as [|d x y b d' _ [Hnc Hn] Hr|d arcs b d' _ [Hnc Hn] Ha].
  - split; [apply enforce_node_consistency_ok|apply enforce_node_consistency_narrows].
  - apply revise_narrows in Hr. destruct Hr as [Hr _].
    split; [eapply narrows_node_consistent|eapply narrows_trans]; eauto.
  - apply ac3_narrows in Ha. destruct Ha as [Ha _].
    split; [eapply narrows_node_consistent|eapply narrows_trans]; eauto.
Qed.

Lemma domain_length_invariant_witness :
  node_consistent Hook.doms_ac3
  /\ narrows (init_domains Hook.variables Hook.words) Hook.doms_ac3.
Proof.
  apply (@domain_length_invariant Hook.variables Hook.overlaps).
  eapply after_ac3 with (arcs := None) (b := true).
  - eapply after_revise with (x := Hook.X) (y := Hook.Z) (b := false).
    + apply after_node_consistency.
    + vm_compute. reflexivity.
  - vm_compute. reflexivity.
Defined.

(** C9. Value ordering: for a variable that is not assigned,
    [order_domain_values] returns the words of its domain, each once, in
    ascending order of the number of values they rule out in the domains of
    the neighbors that are not assigned; a value is ruled out when it
    differs from the candidate at the overlap indices.  The order among
    equal counts is that of the domain. *)
Theorem order_domain_values_lcv (variables : list Var)
        (overlaps : Var -> Var -> option (nat * nat))
        (doms : domains) (var : Var) (a : assignment) (dv : list word) :
  well_formed overlaps -> covers variables doms ->
  node_consistent doms -> sets doms ->
  dict_mem Var_eq_dec a var = false ->
  dict_get Var_eq_dec doms var = Some dv ->
  exists vals,
    order_domain_values variables overlaps doms var a = Ok vals
    /\ Permutation vals dv
    /\ StronglySorted (key_le (eliminated variables overlaps doms var a)) vals
    /\ vals = sorted_by (eliminated variables overlaps doms var a) dv.
Proof.
  intros Hwf Hcov Hnc Hsets Hmem Hdv.
  exists (sorted_by (eliminated variables overlaps doms var a) dv).
  split; [now apply order_domain_values_sorted|].
  split; [apply sorted_by_perm|]. split; [apply sorted_by_sorted|reflexivity].
Qed.

Lemma order_domain_values_lcv_witness :
  exists vals,
    order_domain_values Hook.variables Hook.overlaps Hook.doms_ac3 Hook.X [] = Ok vals
    /\ Permutation vals ["CAT"; "DOG"]%string
    /\ StronglySorted
         (key_le (eliminated Hook.variables Hook.overlaps Hook.doms_ac3 Hook.X [])) vals
    /\ vals = sorted_by (eliminated Hook.variables Hook.overlaps Hook.doms_ac3 Hook.X [])
                        ["CAT"; "DOG"]%string.
Proof.
  apply (@order_domain_values_lcv Hook.variables Hook.overlaps Hook.doms_ac3 Hook.X []).
  - apply Hook_well_formed.
  - apply Hook_doms_ac3_ok.
  - apply Hook_doms_ac3_ok.
  - apply Hook_doms_ac3_ok.
  - reflexivity.
  - reflexivity.
Defined.

(** ** Every arc of the queue is revised *)

Lemma anyM_true {A : Type} (p : A -> res bool) (l : list A) :
  anyM p l = Ok true -> exists a, In a l /\ p a = Ok true.
Proof.
  induction l as [|b l IH]; simpl; intros H; [discriminate|].
  destruct (p b) as [[|]| |] eqn:E; simpl in H; try discriminate.
  - exists b. auto.
  - destruct (IH H) as (a & Ha & Hp). exists a. auto.
Qed.

Lemma eq_at_true (a : word) (i : nat) (b : word) (j : nat) :
  eq_at a i b j = Ok true -> compatible a i b j = true.
Proof.
  unfold eq_at, compatible, index.
  destruct (get i a) as [ca|]; simpl; [|discriminate].
  destruct (get j b) as [cb|]; simpl; [|discriminate].
  destruct (ascii_dec ca cb); [reflexivity|discriminate].
Qed.

Section RevisedFacts.
Variable variables : list Var.
Variable overlaps : Var -> Var -> option (nat * nat).

Lemma revise_body_narrows (d : domains) (x y : Var) (i j : nat)
      (st st' : bool * domains) (x_val : word) :
  revise_body d x y i j st x_val = Ok st' -> narrows (snd st) (snd st').
Proof.
  destruct st as [rev cur]. unfold revise_body.
  destruct (getitem Var_eq_dec d y) as [dy| |]; simpl; try discriminate.
  destruct (anyM (fun y_val => eq_at x_val i y_val j) dy) as [[|]| |]; simpl;
    try discriminate.
  - intros H. inversion H; subst. apply narrows_refl.
  - destruct (getitem Var_eq_dec cur x) as [cx| |] eqn:Ec; simpl; try discriminate.
    intros H. inversion H; subst. simpl. apply getitem_Ok in Ec.
    now apply narrows_set.
Qed.

Lemma revise_fold_narrows (d : domains) (x y : Var) (i j : nat) (l : list word) :
  forall st st', foldM (revise_body d x y i j) l st = Ok st' ->
                 narrows (snd st) (snd st').
Proof.
  induction l as [|u l IH]; intros st st' H; simpl in H.
  - inversion H; subst. apply narrows_refl.
  - destruct (revise_body d x y i j st u) as [st1| |] eqn:E; simpl in H;
      try discriminate.
    eapply narrows_trans; [eapply revise_body_narrows; exact E|now apply IH].
Qed.

(** A word that the loop of [revise] has looked at and left in the domain of
    [x] has a compatible word in the domain of [y]. *)
Lemma revise_fold_supported (d : domains) (x y : Var) (i j : nat) (l : list word) :
  overlaps x y = Some (i, j) ->
  forall st st', foldM (revise_body d x y i j) l st = Ok st' ->
  forall dx' w, dict_get Var_eq_dec (snd st') x = Some dx' -> In w dx' -> In w l ->
                supported_in overlaps d x y w.
Proof.
  intros Ho. induction l as [|u l IH]; intros st st' H dx' w Hdx' Hw Hl;
    [destruct Hl|]. simpl in H.
  destruct (revise_body d x y i j st u) as [st1| |] eqn:E; simpl in H;
    try discriminate.
  destruct (string_dec u w) as [->|Hne].
  2:{ destruct Hl as [|Hl]; [contradiction|]. eapply IH; eauto. }
  destruct st as [rev cur]. unfold revise_body in E.
  destruct (getitem Var_eq_dec d y) as [dy| |] eqn:Ey; simpl in E; try discriminate.
  apply getitem_Ok in Ey.
  destruct (anyM (fun y_val => eq_at w i y_val j) dy) as [[|]| |] eqn:Ea; simpl in E;
    try discriminate.
  - apply anyM_true in Ea. destruct Ea as (w' & Hw' & He).
    exists i, j, dy, w'. repeat split; try assumption. now apply eq_at_true.
  - exfalso.
    destruct (getitem Var_eq_dec cur x) as [cx| |] eqn:Ec; simpl in E; try discriminate.
    inversion E; subst. clear E.
    apply revise_fold_narrows in H. simpl in H.
    destruct (narrows_get _ H Hdx') as (ws & keep & Hws & ->).
    rewrite dict_get_set_eq in Hws. inversion Hws; subst.
    apply filter_In in Hw. destruct Hw as [Hw _].
    unfold set_remove in Hw. apply filter_In in Hw. destruct Hw as [_ Hw].
    now destruct (string_dec w w).
Qed.

Lemma revise_supported (d d' : domains) (x y : Var) (b : bool) :
  revise overlaps d x y = Ok (b, d') ->
  forall dx' w, dict_get Var_eq_dec d' x = Some dx' -> In w dx' ->
                supported_in overlaps d x y w.
Proof.
  unfold revise. intros H dx' w Hdx' Hw.
  destruct (overlaps x y) as [[i j]|] eqn:Ho; [|discriminate]. simpl in H.
  destruct (getitem Var_eq_dec d x) as [dx| |] eqn:Hdx; try discriminate.
  simpl in H. apply getitem_Ok in Hdx.
  eapply (@revise_fold_supported d x y i j dx Ho _ _ H dx' w Hdx' Hw).
  apply revise_fold_narrows in H. simpl in H.
  destruct (narrows_get _ H Hdx') as (ws & keep & Hws & ->).
  assert (ws = dx) by congruence. subst. apply filter_In in Hw. apply Hw.
Qed.

Lemma supported_in_narrows (d0 d : domains) (x y : Var) (w : word) :
  narrows d0 d -> supported_in overlaps d x y w -> supported_in overlaps d0 x y w.
Proof.
  intros Hn (i & j & dy & w' & Ho & Hdy & Hw' & Hc).
  destruct (narrows_incl _ Hn Hdy) as (dy0 & Hdy0 & Hincl).
  exists i, j, dy0, w'. repeat split; auto.
Qed.

Lemma enqueue_keeps (x : Var) (ns : list Var) (arcs : list arc) (e : arc) :
  In e arcs -> In e (fold_left (enqueue x) ns arcs).
Proof.
  revert arcs. induction ns as [|n ns IH]; intros arcs H; simpl; [exact H|].
  apply IH. unfold enqueue. destruct (in_dec arc_eq_dec (x, n) arcs); [exact H|].
  apply in_or_app. now left.
Qed.

(** When the loop of [ac3] returns True, every arc that was in the queue at
    some point has been revised. *)
Lemma ac3_loop_revised (d0 : domains) (todo : list arc) (fuel : nat) :
  forall (d : domains) (arcs : list arc) (d' : domains),
    narrows d0 d ->
    (forall x y, In (x, y) todo ->
       In (x, y) arcs
       \/ forall dx w, dict_get Var_eq_dec d x = Some dx -> In w dx ->
                       supported_in overlaps d0 x y w) ->
    ac3_loop variables overlaps fuel d arcs = Ok (true, d') ->
    forall x y dx w, In (x, y) todo -> dict_get Var_eq_dec d' x = Some dx -> In w dx ->
                     supported_in overlaps d0 x y w.
Proof.
  induction fuel as [|fuel IH]; intros d arcs d' Hn Hinv H; [discriminate|].
  simpl in H. unfold ac3_step in H. destruct arcs as [|[x0 y0] arcs].
  - simpl in H. inversion H; subst. intros x y dx w Hin.
    destruct (Hinv x y Hin) as [[]|Hdone]. apply Hdone.
  - destruct (revise overlaps d x0 y0) as [[rev d1]| |] eqn:Er; simpl in H;
      try discriminate.
    pose proof (@revise_supported d d1 x0 y0 rev Er) as Hsup.
    apply revise_narrows in Er. destruct Er as (Hn1 & _ & _).
    assert (Hinv1 : forall arcs1, (forall e, In e arcs -> In e arcs1) ->
              forall x y, In (x, y) todo ->
                In (x, y) arcs1
                \/ forall dx w, dict_get Var_eq_dec d1 x = Some dx -> In w dx ->
                                supported_in overlaps d0 x y w).
    { intros arcs1 Hsub x y Hin. destruct (Hinv x y Hin) as [[E|Hq]|Hdone].
      - inversion E; subst. right. intros dx w Hdx Hw.
        eapply supported_in_narrows; [exact Hn|]. eapply Hsup; eauto.
      - left. now apply Hsub.
      - right. intros dx w Hdx Hw.
        destruct (narrows_incl _ Hn1 Hdx) as (dx0 & Hdx0 & Hincl).
        eapply Hdone; [exact Hdx0|]. now apply Hincl. }
    assert (Hn01 : narrows d0 d1) by (eapply narrows_trans; eauto).
    destruct rev.
    + destruct (getitem Var_eq_dec d1 x0) as [dx0| |]; simpl in H; try discriminate.
      destruct (List.length dx0 =? 0); simpl in H; [discriminate|].
      eapply IH; [exact Hn01| |exact H]. apply Hinv1.
      intros e He. now apply enqueue_keeps.
    + simpl in H. eapply IH; [exact Hn01| |exact H]. apply Hinv1. auto.
Qed.
End RevisedFacts.

(** C10. [ac3] with an empty list of arcs is [ac3] with no argument.  The
    queue does not start from the empty list that was supplied: it starts
    from [arcs_helper], which holds exactly the arcs (variable, neighbor) of
    the store; the final domains and the returned value are those of
    [ac3(None)]; the call ends; and the propagation is carried out: when the
    call returns True, every word left in the domain of a variable has a
    compatible word in the domain that each neighbor started with. *)
Theorem ac3_empty_arcs (variables : list Var)
        (overlaps : Var -> Var -> option (nat * nat)) (doms : domains) :
  ac3 variables overlaps doms (Some []) = ac3 variables overlaps doms None
  /\ ac3 variables overlaps doms (Some [])
     = ac3_loop variables overlaps
                (ac3_fuel variables doms (arcs_helper variables overlaps doms))
                doms (arcs_helper variables overlaps doms)
  /\ (forall x y, In (x, y) (arcs_helper variables overlaps doms)
                  <-> In x (dict_keys doms) /\ In y (neighbors variables overlaps x))
  /\ ac3 variables overlaps doms (Some []) <> Timeout
  /\ (forall d', ac3 variables overlaps doms (Some []) = Ok (true, d') ->
                 narrows doms d' /\ propagated_from variables overlaps doms d').
Proof.
  assert (Harcs : forall x y, In (x, y) (arcs_helper variables overlaps doms)
                    <-> In x (dict_keys doms) /\ In y (neighbors variables overlaps x)).
  { intros x y. unfold arcs_helper. rewrite in_flat_map. split.
    - intros (v & Hv & H). apply in_map_iff in H. destruct H as (n & E & Hn).
      inversion E; subst. auto.
    - intros [Hx Hy]. exists x. split; [assumption|]. apply in_map_iff. eauto. }
  split; [reflexivity|]. split; [reflexivity|]. split; [exact Harcs|].
  split; [apply ac3_terminates|].
  intros d' H. split; [apply (ac3_narrows _ _ _ _ H)|].
  intros x y dx w Hx Hy Hdx Hw. unfold ac3 in H.
  eapply (@ac3_loop_revised variables overlaps doms
            (arcs_helper variables overlaps doms));
    [apply narrows_refl| |exact H| |exact Hdx|exact Hw].
  - intros x1 y1 Hin. now left.
  - apply Harcs. auto.
Qed.

(** On the Hook puzzle after node consistency, the loop started from the
    empty queue would leave the store as it is; [ac3] with the empty list
    runs over the four arcs instead and removes DIM from the domain of X. *)
Lemma ac3_empty_arcs_witness :
  ac3_loop Hook.variables Hook.overlaps 1 Hook.doms [] = Ok (true, Hook.doms)
  /\ ac3 Hook.variables Hook.overlaps Hook.doms (Some []) = Ok (true, Hook.doms_ac3)
  /\ List.length (arcs_helper Hook.variables Hook.overlaps Hook.doms) = 4
  /\ narrows Hook.doms Hook.doms_ac3
  /\ propagated_from Hook.variables Hook.overlaps Hook.doms Hook.doms_ac3.
Proof.
  split; [reflexivity|]. split; [vm_compute; reflexivity|].
  split; [reflexivity|].
  apply (@ac3_empty_arcs Hook.variables Hook.overlaps Hook.doms).
  vm_compute. reflexivity.
Defined.

(** ** A store with an empty domain *)

Section EmptyDomain.
Variable variables : list Var.
Variable overlaps : Var -> Var -> option (nat * nat).
Hypothesis overlaps_wf : well_formed overlaps.

Lemma order_domain_values_empty (doms : domains) (var : Var) :
  dict_get Var_eq_dec doms var = Some [] ->
  order_domain_values variables overlaps doms var [] = Ok [].
Proof.
  intros Hv. unfold order_domain_values. simpl dict_mem. cbv iota.
  unfold getitem at 1. rewrite Hv. simpl.
  assert (H : forall ns, incl ns (neighbors variables overlaps var) ->
                         foldM (lcv_body overlaps doms var []) ns [] = Ok []).
  { induction ns as [|n ns IH]; intros Hincl; simpl; [reflexivity|].
    destruct (neighbors_overlap variables overlaps_wf var n) as (_ & _ & i & j & Ho & _).
    { apply Hincl. now left. }
    unfold lcv_body at 1. simpl dict_mem. cbv iota. rewrite Ho. simpl.
    unfold getitem. rewrite Hv. simpl. apply IH.
    intros u Hu. apply Hincl. now right. }
  rewrite H by apply incl_refl. reflexivity.
Qed.

(** With an empty domain in the store, the first call of [backtrack]
    selects a variable that has no value, tries nothing, and returns None. *)
Lemma backtrack_empty_domain (doms : domains) (x : Var) (fuel : nat) :
  dict_get Var_eq_dec doms x = Some [] ->
  backtrack variables overlaps (S fuel) doms [] = Ok (mkSearch None [] 1).
Proof.
  intros Hx. simpl.
  assert (Hun : unassigned doms [] x).
  { split; [eapply dict_get_Some_key; eauto|reflexivity]. }
  assert (Hc : forallb (fun var => dict_mem Var_eq_dec ([] : assignment) var)
                       (dict_keys doms) = false).
  { destruct (forallb _ (dict_keys doms)) eqn:E; [|reflexivity].
    rewrite forallb_forall in E. specialize (E x (proj1 Hun)). discriminate. }
  rewrite Hc.
  destruct (select_unassigned_variable_total variables overlaps Hun) as [v Hv].
  rewrite Hv. simpl.
  apply select_unassigned_variable_spec in Hv. destruct Hv as ([Hk _] & Hmin & _).
  specialize (Hmin x Hun). unfold dom_size in Hmin. rewrite Hx in Hmin. simpl in Hmin.
  destruct (dict_key_get Var_eq_dec doms v Hk) as [dv Hdv]. rewrite Hdv in Hmin.
  destruct dv as [|w dv]; [|simpl in Hmin; lia].
  rewrite (order_domain_values_empty _ _ Hdv). reflexivity.
Qed.
End EmptyDomain.

(** C3 (as the code has it).  When a domain becomes empty during AC-3,
    [solve] does not stop there: it ignores what [ac3] returns and calls
    [backtrack], once; that call selects a variable with an empty domain,
    tries no value, and returns the "no solution" result. *)
Theorem solve_after_failed_ac3 (variables : list Var)
        (overlaps : Var -> Var -> option (nat * nat)) (doms d' : domains) :
  well_formed overlaps ->
  ac3 variables overlaps (enforce_node_consistency doms) None = Ok (false, d') ->
  solve variables overlaps doms = Ok (None, d', 1).
Proof.
  intros Hwf Hac3. unfold solve. rewrite Hac3. cbn [bind].
  destruct (proj2 (ac3_narrows _ _ _ _ Hac3) eq_refl) as [x Hx].
  now rewrite (backtrack_empty_domain variables Hwf _ _ (List.length d') Hx).
Qed.

Lemma solve_after_failed_ac3_witness :
  solve Corner.variables Corner.overlaps
        (init_domains Corner.variables Corner.words_unsolvable)
  = Ok (None, [(Corner.A, []); (Corner.B, ["DOGS"%string])], 1).
Proof.
  apply solve_after_failed_ac3.
  - apply Corner_well_formed.
  - vm_compute. reflexivity.
Defined.

(** C3 as the spec words it fails on the Corner puzzle with the words CAT and
    DOGS: AC-3 empties the domain of the across slot, and [solve] still makes
    one call of [backtrack], where the short circuit makes none. *)
Lemma solve_short_circuit_counterexample :
  ac3 Corner.variables Corner.overlaps
      (enforce_node_consistency
         (init_domains Corner.variables Corner.words_unsolvable)) None
  = Ok (false, [(Corner.A, []); (Corner.B, ["DOGS"%string])])
  /\ solve Corner.variables Corner.overlaps
           (init_domains Corner.variables Corner.words_unsolvable)
     = Ok (None, [(Corner.A, []); (Corner.B, ["DOGS"%string])], 1)
  /\ solve_short_circuit Corner.variables Corner.overlaps
           (init_domains Corner.variables Corner.words_unsolvable)
     = Ok (None, [(Corner.A, []); (Corner.B, ["DOGS"%string])], 0)
  /\ solve Corner.variables Corner.overlaps
           (init_domains Corner.variables Corner.words_unsolvable)
     <> solve_short_circuit Corner.variables Corner.overlaps
           (init_domains Corner.variables Corner.words_unsolvable).
Proof.
  repeat split; try (vm_compute; reflexivity).
  vm_compute. discriminate.
Qed.

(** ** Failed branches of the search *)

(** When the recursive call on a consistent extension returns None, the
    caller passes None to [assignment_complete], which raises TypeError:
    the next value is not tried. *)
Lemma backtrack_loop_failed_branch (overlaps : Var -> Var -> option (nat * nat))
      (recurse : assignment -> res search) (doms : domains) (var : Var)
      (val : word) (vals : list word) (a copy : assignment) (n : nat) (r : search) :
  dict_keys doms <> [] ->
  consistent overlaps (dict_set Var_eq_dec copy var val) = Ok true ->
  recurse (dict_set Var_eq_dec a var val) = Ok r ->
  result r = None ->
  backtrack_loop overlaps recurse doms var (val :: vals) a copy n = Raise TypeError.
Proof.
  intros Hk Hc Hr Hres. simpl. rewrite Hc. simpl. rewrite Hr. simpl.
  rewrite Hres. simpl. destruct (dict_keys doms); [contradiction|reflexivity].
Qed.

(** C2 (violated by the code).  On the Hook puzzle the search selects X and
    tries CAT first; the recursive call on the extension X = CAT fails and
    returns None as a normal value; the caller then raises TypeError instead
    of undoing the extension and trying DOG, and the exception leaves
    [solve]. *)
Theorem backtrack_failed_branch_raises :
  select_unassigned_variable Hook.variables Hook.overlaps Hook.doms_ac3 []
  = Ok Hook.X
  /\ order_domain_values Hook.variables Hook.overlaps Hook.doms_ac3 Hook.X []
     = Ok ["CAT"; "DOG"]%string
  /\ backtrack Hook.variables Hook.overlaps 3 Hook.doms_ac3 [(Hook.X, "CAT"%string)]
     = Ok (mkSearch None [(Hook.X, "CAT"%string)] 1)
  /\ backtrack Hook.variables Hook.overlaps 4 Hook.doms_ac3 [] = Raise TypeError
  /\ solve Hook.variables Hook.overlaps (init_domains Hook.variables Hook.words)
     = Raise TypeError.
Proof. repeat split; vm_compute; reflexivity. Qed.

(** The same happens in whatever order the sets of variables and of words
    are iterated. *)
Lemma solve_hook_raises_in_every_order :
  forallb (fun vs =>
             forallb (fun ws =>
                        match solve vs Hook.overlaps (init_domains vs ws) with
                        | Raise TypeError => true
                        | _ => false
                        end)
                     (permutations Hook.words))
          (permutations Hook.variables)
  = true.
Proof. vm_compute. reflexivity. Qed.

Lemma Hook_solution_ok :
  complete Hook.variables Hook.solution /\ pairwise_distinct Hook.solution
  /\ lengths_match Hook.solution /\ overlaps_agree Hook.overlaps Hook.solution
  /\ forall v w, dict_get Var_eq_dec Hook.solution v = Some w -> In w Hook.words.
Proof.
  split; [|split; [|split; [|split]]].
  - intros v Hv. unfold Hook.variables in Hv. list_cases; eexists; reflexivity.
  - apply (@consistent_sound Hook.overlaps);
      [repeat constructor; simpl; intuition discriminate | reflexivity].
  - apply (@consistent_sound Hook.overlaps);
      [repeat constructor; simpl; intuition discriminate | reflexivity].
  - apply (@consistent_sound Hook.overlaps);
      [repeat constructor; simpl; intuition discriminate | reflexivity].
  - intros v w H. apply dict_get_In in H. unfold Hook.solution in H.
    list_cases; simpl; auto 10.
Qed.

(** C4 (violated by the code).  The Hook puzzle has the solution X = DOG,
    Z = DIM, Y = GOAT, made of words of the original list, and [solve] does
    not return it, or any other: it raises TypeError. *)
Theorem solve_misses_solution :
  (complete Hook.variables Hook.solution /\ pairwise_distinct Hook.solution
   /\ lengths_match Hook.solution /\ overlaps_agree Hook.overlaps Hook.solution
   /\ forall v w, dict_get Var_eq_dec Hook.solution v = Some w -> In w Hook.words)
  /\ solve Hook.variables Hook.overlaps (init_domains Hook.variables Hook.words)
     = Raise TypeError.
Proof. split; [exact Hook_solution_ok | vm_compute; reflexivity]. Qed.

(** ** The arcs that ac3 puts back *)

(** After a pass on the arc (x, y), every arc of the queue was already there
    or starts at [x]. *)
Lemma ac3_step_enqueues (variables : list Var)
      (overlaps : Var -> Var -> option (nat * nat))
      (doms doms' : domains) (x y : Var) (arcs arcs' : list arc) :
  ac3_step variables overlaps doms ((x, y) :: arcs) = Ok (Continue doms' arcs') ->
  forall z n, In (z, n) arcs' -> In (z, n) arcs \/ z = x.
Proof.
  unfold ac3_step. intros H. inv_bind H. destruct a as [[|] d1].
  - inv_bind H. destruct (List.length a =? 0); inversion H; subst. clear.
    generalize (filter (fun n => if Var_eq_dec n y then false else true)
                       (neighbors variables overlaps x)).
    intros ns. revert arcs. induction ns as [|m ns IH]; intros arcs z n Hin; simpl in Hin.
    + now left.
    + apply IH in Hin. destruct Hin as [Hin|Hin]; [|now right].
      unfold enqueue in Hin. destruct (in_dec arc_eq_dec (x, m) arcs); [now left|].
      apply in_app_or in Hin. destruct Hin as [Hin|[E|[]]]; [now left|].
      inversion E. now right.
  - inversion H; subst. intros; now left.
Qed.

(** C5 (violated by the code).  On the Hook puzzle, [revise] removes DIM from
    the domain of X for the arc (X, Y) and leaves it non-empty; Z is a
    neighbor of X other than Y; the queue then holds (X, Z), and not the arc
    (Z, X) of the claim. *)
Theorem ac3_enqueues_reversed_arc :
  revise Hook.overlaps Hook.doms Hook.X Hook.Y = Ok (true, Hook.doms_ac3)
  /\ dict_get Var_eq_dec Hook.doms_ac3 Hook.X = Some ["CAT"; "DOG"]%string
  /\ In Hook.Z (neighbors Hook.variables Hook.overlaps Hook.X)
  /\ Hook.Z <> Hook.Y
  /\ ac3_step Hook.variables Hook.overlaps Hook.doms [(Hook.X, Hook.Y)]
     = Ok (Continue Hook.doms_ac3 [(Hook.X, Hook.Z)])
  /\ ~ In (Hook.Z, Hook.X) [(Hook.X, Hook.Z)].
Proof.
  repeat split; try (vm_compute; reflexivity).
  - vm_compute. auto.
  - discriminate.
  - intros [H|[]]. discriminate.
Qed.

(** ** Arc consistency after ac3 *)

Lemma arc_consistent_test (variables : list Var)
      (overlaps : Var -> Var -> option (nat * nat)) (doms : domains) :
  arc_consistent variables overlaps doms ->
  arc_consistentb variables overlaps doms = true.
Proof.
  intros H. unfold arc_consistentb. apply forallb_forall. intros x Hx.
  destruct (dict_get Var_eq_dec doms x) as [dx|] eqn:Edx; [|reflexivity].
  apply forallb_forall. intros y Hy. apply forallb_forall. intros w Hw.
  unfold supportedb. destruct (overlaps x y) as [[i j]|] eqn:Eo; [|reflexivity].
  destruct (H x y i j dx w Hx Hy Eo Edx Hw) as (dy & w' & c & Hdy & Hw' & Hi & Hj).
  rewrite Hdy. apply existsb_exists. exists w'. split; [assumption|].
  rewrite Hi, Hj. now destruct (ascii_dec c c).
Qed.

(** C6 (violated by the code).  On the Chain puzzle [ac3], seeded with all
    the arcs, returns True and leaves SIR in the domain of X although no word
    of the domain of Y starts with R: the store is not arc consistent,
    [revise] on the arc (X, Y) still changes it, and with the variables
    iterated in the reverse order the final domains are different ones. *)
Theorem ac3_not_arc_consistent :
  ac3 Chain.variables Chain.overlaps (Chain.doms Chain.variables) None
  = Ok (true, Chain.doms_ac3)
  /\ ~ arc_consistent Chain.variables Chain.overlaps Chain.doms_ac3
  /\ revise Chain.overlaps Chain.doms_ac3 Chain.X Chain.Y
     = Ok (true, [(Chain.W, ["GO"; "US"]%string); (Chain.X, ["ORB"]%string);
                  (Chain.Y, ["BARK"]%string); (Chain.Z, ["KNIFE"]%string)])
  /\ ac3 (rev Chain.variables) Chain.overlaps (Chain.doms (rev Chain.variables)) None
     = Ok (true, [(Chain.Z, ["KNIFE"; "NIGHT"]%string);
                  (Chain.Y, ["BARK"; "MEAN"]%string);
                  (Chain.X, ["ORB"]%string); (Chain.W, ["GO"]%string)]).
Proof.
  split; [vm_compute; reflexivity|]. split; [|split; vm_compute; reflexivity].
  intros H. apply arc_consistent_test in H. vm_compute in H. discriminate.
Qed.

(** In each of the 24 orders of the variables, [ac3] returns True on the
    Chain puzzle and the store it leaves is not arc consistent. *)
Lemma ac3_chain_in_every_order :
  Forall (fun vs =>
            exists d, ac3 vs Chain.overlaps (Chain.doms vs) None = Ok (true, d)
                      /\ ~ arc_consistent vs Chain.overlaps d)
         (permutations Chain.variables).
Proof.
  assert (H : forall vs,
             match ac3 vs Chain.overlaps (Chain.doms vs) None with
             | Ok (true, d) => negb (arc_consistentb vs Chain.overlaps d)
             | _ => false
             end = true ->
             exists d, ac3 vs Chain.overlaps (Chain.doms vs) None = Ok (true, d)
                       /\ ~ arc_consistent vs Chain.overlaps d).
  { intros vs. destruct (ac3 vs Chain.overlaps (Chain.doms vs) None) as [[[|] d]| |];
      try discriminate.
    intros E. exists d. split; [reflexivity|]. intros Hc.
    apply arc_consistent_test in Hc. rewrite Hc in E. discriminate. }
  repeat constructor; apply H; vm_compute; reflexivity.
Qed.

(** The store that AC-3 should reach on the Chain puzzle. *)
Lemma Chain_fixpoint_arc_consistent :
  arc_consistentb Chain.variables Chain.overlaps Chain.doms_fixpoint = true.
Proof. vm_compute. reflexivity. Qed.

(** C7 (violated by the code).  On the Hook puzzle after node consistency, X
    and Z are tied on the fewest remaining values (3 each, Y has 4); X has two
    neighbors and Z has one; [select_unassigned_variable] returns Z, the
    variable with the fewest neighbors. *)
Theorem select_returns_lowest_degree :
  select_unassigned_variable Hook.variables Hook.overlaps Hook.doms [] = Ok Hook.Z
  /\ dom_size Hook.doms Hook.X = 3 /\ dom_size Hook.doms Hook.Z = 3
  /\ dom_size Hook.doms Hook.Y = 4
  /\ degree Hook.variables Hook.overlaps Hook.X = 2
  /\ degree Hook.variables Hook.overlaps Hook.Z = 1.
Proof. repeat split; vm_compute; reflexivity. Qed.

(** The same variable is returned in whatever order the sets of variables
    and of words are iterated. *)
Lemma select_hook_in_every_order :
  forallb (fun vs =>
             forallb (fun ws =>
                        match select_unassigned_variable
                                vs Hook.overlaps
                                (enforce_node_consistency (init_domains vs ws)) [] with
                        | Ok v => if Var_eq_dec v Hook.Z then true else false
                        | _ => false
                        end)
                     (permutations Hook.words))
          (permutations Hook.variables)
  = true.
Proof. vm_compute. reflexivity. Qed.

(** ** The stores of the puzzles are the ones the solver computes *)

Lemma Hook_stores :
  enforce_node_consistency (init_domains Hook.variables Hook.words) = Hook.doms
  /\ ac3 Hook.variables Hook.overlaps Hook.doms None = Ok (true, Hook.doms_ac3).
Proof. split; vm_compute; reflexivity. Qed.

Lemma Chain_stores :
  Chain.doms Chain.variables
  = [(Chain.W, ["GO"; "US"]%string); (Chain.X, ["ORB"; "HIM"; "SIR"]%string);
     (Chain.Y, ["BARK"; "MEAN"; "ROMP"]%string);
     (Chain.Z, ["KNIFE"; "NIGHT"]%string)].
Proof. vm_compute. reflexivity. Qed.

(** * Further properties of the solver *)

(** ** What revise computes *)

Lemma eq_at_compatible (a : word) (i : nat) (b : word) (j : nat) :
  i < String.length a -> j < String.length b ->
  eq_at a i b j = Ok (compatible a i b j).
Proof.
  intros Hi Hj. destruct (get_Some a Hi) as [ca Ha], (get_Some b Hj) as [cb Hb].
  unfold eq_at, compatible, index. now rewrite Ha, Hb.
Qed.

Lemma anyM_existsb {A : Type} (p : A -> res bool) (q : A -> bool) (l : list A) :
  (forall a, In a l -> p a = Ok (q a)) -> anyM p l = Ok (existsb q l).
Proof.
  induction l as [|a l IH]; intros H; simpl; [reflexivity|].
  rewrite (H a) by now left. simpl. destruct (q a); [reflexivity|].
  apply IH. intros b Hb. apply H. now right.
Qed.

Lemma anyM_false {A : Type} (p : A -> res bool) (l : list A) :
  anyM p l = Ok false -> forall a, In a l -> p a = Ok false.
Proof.
  induction l as [|b l IH]; simpl; intros H a Ha; [easy|].
  inv_bind H. destruct a0; [discriminate|].
  destruct Ha as [<-|Ha]; auto.
Qed.

Lemma dict_set_same {K V : Type} (dec : forall a b : K, {a = b} + {a <> b})
      (d : @dict K V) (k : K) (v : V) :
  dict_get dec d k = Some v -> dict_set dec d k v = d.
Proof.
  induction d as [|[k' v'] d IH]; simpl; [discriminate|].
  destruct (dec k k') as [->|Hn]; intros H.
  - now inversion H.
  - now rewrite IH.
Qed.

Section ReviseFacts.
Variable overlaps : Var -> Var -> option (nat * nat).

(** The words that the loop of [revise] removes while it runs over [l]. *)
Let removed (i j : nat) (dy l : list word) (w : word) : bool :=
  existsb (fun u => negb (has_support i j dy u) && if string_dec u w then true else false) l.

Lemma revise_fold (d : domains) (x y : Var) (i j : nat) (dy : list word) :
  dict_get Var_eq_dec d y = Some dy ->
  (forall w, In w dy -> j < String.length w) ->
  forall (l cx : list word) (rev : bool) (cur : domains),
    dict_get Var_eq_dec cur x = Some cx ->
    (forall w, In w l -> i < String.length w) ->
    foldM (revise_body d x y i j) l (rev, cur)
    = Ok (rev || negb (forallb (has_support i j dy) l),
          dict_set Var_eq_dec cur x
                   (filter (fun w => negb (removed i j dy l w)) cx)).
Proof.
  intros Hy Hj. induction l as [|u l IH]; intros cx rev cur Hx Hi; simpl.
  - rewrite orb_false_r. rewrite <- filter_all. now rewrite dict_set_same.
  - unfold getitem at 1. rewrite Hy. simpl.
    rewrite (anyM_existsb (fun y_val => eq_at u i y_val j) (fun w' => compatible u i w' j)).
    2:{ intros w' Hw'. apply eq_at_compatible; [apply Hi; now left|now apply Hj]. }
    simpl. fold (has_support i j dy u). destruct (has_support i j dy u) eqn:Es; simpl.
    + rewrite (IH cx rev cur Hx) by (intros w Hw; apply Hi; now right).
      reflexivity.
    + unfold getitem. rewrite Hx. simpl.
      etransitivity;
        [apply (IH (set_remove u cx));
         [apply dict_get_set_eq | intros w Hw; apply Hi; now right]|].
      rewrite orb_true_r. simpl. rewrite dict_set_set. f_equal. f_equal. f_equal.
      unfold set_remove. rewrite filter_filter. apply filter_ext. intros w.
      destruct (string_dec w u) as [E|Hn], (string_dec u w) as [E'|Hn']; simpl;
        congruence.
Qed.

Lemma removed_unsupported (i j : nat) (dy l : list word) (w : word) :
  In w l -> negb (removed i j dy l w) = has_support i j dy w.
Proof.
  intros Hin. unfold removed. destruct (has_support i j dy w) eqn:Es.
  - apply negb_true_iff. destruct (existsb _ l) eqn:E; [|reflexivity].
    apply existsb_exists in E. destruct E as (u & _ & Hu).
    destruct (string_dec u w) as [->|]; [|now rewrite andb_false_r in Hu].
    rewrite Es in Hu. discriminate.
  - apply negb_false_iff. apply existsb_exists. exists w. split; [assumption|].
    rewrite Es. simpl. now destruct (string_dec w w).
Qed.

Lemma revise_result (d : domains) (x y : Var) (i j : nat) (dx dy : list word) :
  overlaps x y = Some (i, j) ->
  dict_get Var_eq_dec d x = Some dx -> dict_get Var_eq_dec d y = Some dy ->
  (forall w, In w dx -> i < String.length w) ->
  (forall w, In w dy -> j < String.length w) ->
  revise overlaps d x y
  = Ok (negb (forallb (has_support i j dy) dx),
        dict_set Var_eq_dec d x (filter (has_support i j dy) dx)).
Proof.
  intros Ho Hx Hy Hi Hj. unfold revise. rewrite Ho. simpl.
  unfold getitem. rewrite Hx. simpl.
  rewrite (@revise_fold d x y i j dy Hy Hj dx dx false d Hx Hi). simpl.
  f_equal. f_equal. f_equal.
  apply filter_ext_in. intros w Hw. now apply removed_unsupported.
Qed.
End ReviseFacts.

(** ** Propagation keeps the solutions *)

Lemma fits_set_present (d : domains) (a : assignment) (x : Var) (old new : list word) :
  fits d a -> dict_get Var_eq_dec d x = Some old ->
  (forall w, dict_get Var_eq_dec a x = Some w -> In w old -> In w new) ->
  fits (dict_set Var_eq_dec d x new) a.
Proof.
  intros Hf Hx Hnew v ws Hv. destruct (Var_eq_dec x v) as [->|Hn].
  - rewrite dict_get_set_eq in Hv. inversion Hv; subst.
    destruct (Hf v old Hx) as (w & Hw & Hin). eauto.
  - rewrite dict_get_set_neq in Hv by assumption. now apply Hf.
Qed.

Section SolutionFacts.
Variable variables : list Var.
Variable overlaps : Var -> Var -> option (nat * nat).

Lemma revise_fits (d d' : domains) (a : assignment) (x y : Var) (b : bool) :
  fits d a -> overlaps_agree overlaps a -> x <> y ->
  revise overlaps d x y = Ok (b, d') -> fits d' a.
Proof.
  intros Hf Hag Hxy. unfold revise. intros H.
  destruct (overlaps x y) as [[i j]|] eqn:Ho; [|discriminate]. simpl in H.
  destruct (getitem Var_eq_dec d x) as [dx| |] eqn:Hdx; try discriminate.
  simpl in H. apply getitem_Ok in Hdx.
  revert H.
  apply (foldM_inv (fun st : bool * domains => fits (snd st) a)
                   (revise_body d x y i j) dx); [|exact Hf].
  intros [rev cur] x_val [rev' cur'] Hin Hcur Hb. simpl in *.
  destruct (getitem Var_eq_dec d y) as [dy| |] eqn:Hdy; try discriminate.
  simpl in Hb. apply getitem_Ok in Hdy.
  destruct (anyM (fun y_val => eq_at x_val i y_val j) dy) as [[|]| |] eqn:Hany;
    try discriminate; simpl in Hb.
  - inversion Hb; subst. exact Hcur.
  - destruct (getitem Var_eq_dec cur x) as [cx| |] eqn:Hcx; try discriminate.
    simpl in Hb. apply getitem_Ok in Hcx. inversion Hb; subst.
    eapply fits_set_present; [exact Hcur|exact Hcx|].
    intros w Hw Hwin. unfold set_remove. apply filter_In. split; [assumption|].
    destruct (string_dec w x_val) as [->|]; [|reflexivity]. exfalso.
    destruct (Hf y dy Hdy) as (wy & Hwy & Hyin).
    destruct (Hag x y i j x_val wy Hxy Ho Hw Hwy) as (c & Hc1 & Hc2).
    pose proof (anyM_false _ _ Hany wy Hyin) as E. simpl in E.
    unfold eq_at, index in E. rewrite Hc1, Hc2 in E. simpl in E.
    destruct (ascii_dec c c); congruence.
Qed.

Lemma neighbors_neq (x n : Var) : In n (neighbors variables overlaps x) -> n <> x.
Proof.
  unfold neighbors. rewrite filter_In. intros [_ H].
  now destruct (Var_eq_dec n x).
Qed.

Lemma arcs_helper_proper (d : domains) : proper (arcs_helper variables overlaps d).
Proof.
  unfold proper, arcs_helper. apply Forall_forall. intros [x n] Hin.
  apply in_flat_map in Hin. destruct Hin as (v & _ & Hin).
  apply in_map_iff in Hin. destruct Hin as (m & E & Hm). inversion E; subst.
  simpl. intros ->. now apply neighbors_neq in Hm.
Qed.

Lemma enqueue_proper (x : Var) (ns : list Var) (arcs : list arc) :
  (forall n, In n ns -> n <> x) -> proper arcs ->
  proper (fold_left (enqueue x) ns arcs).
Proof.
  revert arcs. induction ns as [|n ns IH]; intros arcs Hns Hp; simpl; [exact Hp|].
  apply IH; [intros m Hm; apply Hns; now right|].
  unfold enqueue. destruct (in_dec arc_eq_dec (x, n) arcs); [exact Hp|].
  apply Forall_app. split; [exact Hp|]. constructor; [|constructor].
  simpl. intros ->. now apply (Hns n (or_introl eq_refl)).
Qed.

Lemma ac3_loop_fits (a : assignment) (fuel : nat) :
  overlaps_agree overlaps a ->
  forall (d : domains) (arcs : list arc) (b : bool) (d' : domains),
    fits d a -> proper arcs ->
    ac3_loop variables overlaps fuel d arcs = Ok (b, d') -> fits d' a.
Proof.
  intros Hag. induction fuel as [|fuel IH]; intros d arcs b d' Hf Hp H;
    [discriminate|].
  simpl in H. inv_bind H. unfold ac3_step in Ha. destruct arcs as [|[x y] arcs].
  - inversion Ha; subst. inversion H; subst. exact Hf.
  - inversion Hp as [|? ? Hxy Hp']; subst. simpl in Hxy.
    inv_bind Ha. destruct a1 as [revised d1].
    pose proof (revise_fits Hf Hag Hxy Ha0) as Hf1.
    destruct revised.
    + inv_bind Ha. destruct (List.length a1 =? 0); inversion Ha; subst.
      * inversion H; subst. exact Hf1.
      * eapply IH; [exact Hf1| |exact H].
        apply enqueue_proper; [|exact Hp'].
        intros n Hn. apply filter_In in Hn. apply neighbors_neq. apply Hn.
    + inversion Ha; subst. eapply IH; eauto.
Qed.
End SolutionFacts.

(** ** The values that the search tries *)

Tactic Notation "bind_inv" hyp(H) "as" ident(a) ident(Ha) :=
  apply bind_Ok in H; destruct H as (a & Ha & H).

Lemma lcv_init_keys (l : list word) :
  forall (acc : @dict word nat) (w : word),
    In w (dict_keys (fold_left (fun d val => dict_set string_dec d val 0) l acc))
    <-> In w l \/ In w (dict_keys acc).
Proof.
  induction l as [|v l IH]; intros acc w; simpl; [tauto|].
  rewrite IH, dict_keys_set_incl. intuition congruence.
Qed.

Lemma increment_keys (lcv lcv' : @dict word nat) (x : word) :
  increment lcv x = Ok lcv' -> dict_keys lcv' = dict_keys lcv.
Proof.
  unfold increment. intros H. inv_bind H. inversion H; subst.
  apply getitem_Ok in Ha. apply dict_keys_set_old. eapply dict_get_Some_key; eauto.
Qed.

Section TriedValues.
Variable variables : list Var.
Variable overlaps : Var -> Var -> option (nat * nat).

Lemma lcv_body_keys (doms : domains) (var : Var) (a : assignment)
      (lcv lcv' : @dict word nat) (n : Var) :
  lcv_body overlaps doms var a lcv n = Ok lcv' -> dict_keys lcv' = dict_keys lcv.
Proof.
  unfold lcv_body. destruct (dict_mem Var_eq_dec a n); [intros H; now inversion H|].
  intros H. bind_inv H as ij Hij. destruct ij as [i j]. bind_inv H as dx Hdx.
  revert H.
  apply (foldM_inv (fun s : @dict word nat => dict_keys s = dict_keys lcv));
    [|reflexivity].
  intros s x_val s' _ Hs H. bind_inv H as dn Hdn. revert H.
  apply (foldM_inv (fun t : @dict word nat => dict_keys t = dict_keys lcv));
    [|exact Hs].
  intros t y_val t' _ Ht H. bind_inv H as ne Hne. destruct ne.
  - apply increment_keys in H. congruence.
  - inversion H; subst. exact Ht.
Qed.

(** The values tried for a variable are the words of its domain. *)
Lemma order_domain_values_In (doms : domains) (var : Var) (a : assignment)
      (vals dv : list word) :
  order_domain_values variables overlaps doms var a = Ok vals ->
  dict_get Var_eq_dec doms var = Some dv ->
  forall w, In w vals <-> In w dv.
Proof.
  unfold order_domain_values. destruct (dict_mem Var_eq_dec a var); [discriminate|].
  intros H Hdv w. unfold getitem in H. rewrite Hdv in H. simpl in H.
  bind_inv H as lcv Hlcv. inversion H; subst. clear H.
  assert (Hk : forall u, In u (dict_keys lcv) <-> In u dv).
  { revert Hlcv.
    apply (foldM_inv (fun s : @dict word nat => forall u, In u (dict_keys s) <-> In u dv)).
    - intros s n s' _ Hs H. apply lcv_body_keys in H. now rewrite H.
    - intros u. rewrite lcv_init_keys. simpl. tauto. }
  rewrite <- Hk. unfold dict_keys.
  split; apply Permutation_in, Permutation_map; [|symmetry]; apply sorted_by_perm.
Qed.

(** When the loop of [backtrack] ends with None, no value passed
    [consistent], no recursive call was made, and the dict is as it was. *)
Lemma backtrack_loop_none (recurse : assignment -> res search) (doms : domains)
      (var : Var) :
  dict_keys doms <> [] ->
  (forall a1 r a', recurse a1 = Ok r -> result r = Some a' ->
                   assignment_complete doms (Some a') = Ok true) ->
  forall (vals : list word) (a copy : assignment) (n : nat) (r : search),
    backtrack_loop overlaps recurse doms var vals a copy n = Ok r ->
    result r = None ->
    heap r = a /\ calls r = n
    /\ forall val, In val vals ->
                   consistent overlaps (dict_set Var_eq_dec copy var val) = Ok false.
Proof.
  intros Hk Hrec. induction vals as [|val vals IH]; intros a copy n r H Hres.
  - simpl in H. inversion H; subst. simpl. repeat split. intros val [].
  - simpl in H.
    destruct (consistent overlaps (dict_set Var_eq_dec copy var val)) as [[|]| |] eqn:Ec;
      try discriminate; simpl in H.
    + exfalso.
      destruct (recurse (dict_set Var_eq_dec a var val)) as [r1| |] eqn:Er;
        try discriminate; simpl in H.
      destruct (assignment_complete doms (result r1)) as [c| |] eqn:Ea;
        try discriminate; simpl in H.
      assert (c = true).
      { eapply assignment_complete_result; [|exact Ea]. intros; eapply Hrec; eauto. }
      subst c. inversion H; subst. simpl in Hres. rewrite Hres in Ea. simpl in Ea.
      destruct (dict_keys doms); [contradiction|discriminate].
    + destruct (IH _ _ _ _ H Hres) as (Hh & Hc & Hall).
      repeat split; try assumption.
      intros v [<-|Hv]; [exact Ec|]. rewrite <- (Hall v Hv). now rewrite dict_set_set.
Qed.

Lemma backtrack_none (fuel : nat) (doms : domains) (a : assignment) (r : search) :
  backtrack variables overlaps fuel doms a = Ok r -> result r = None ->
  heap r = a /\ calls r = 1
  /\ exists var vals,
       select_unassigned_variable variables overlaps doms a = Ok var
       /\ order_domain_values variables overlaps doms var a = Ok vals
       /\ forall val, In val vals ->
                      consistent overlaps (dict_set Var_eq_dec a var val) = Ok false.
Proof.
  destruct fuel as [|fuel]; [discriminate|]. simpl. intros H Hres.
  destruct (forallb (fun var => dict_mem Var_eq_dec a var) (dict_keys doms)) eqn:Ec.
  - inversion H; subst. discriminate.
  - assert (Hk : dict_keys doms <> []).
    { intros E. rewrite E in Ec. discriminate. }
    destruct (select_unassigned_variable variables overlaps doms a) as [var| |] eqn:Es;
      try discriminate; simpl in H.
    destruct (order_domain_values variables overlaps doms var a) as [vals| |] eqn:Eo;
      try discriminate; simpl in H.
    destruct (@backtrack_loop_none (backtrack variables overlaps fuel doms) doms var Hk
                (fun a1 r1 a' => @backtrack_complete variables overlaps fuel doms a1 r1 a')
                vals a a 1 r H Hres) as (Hh & Hc & Hall).
    repeat split; try assumption. exists var, vals. auto.
Qed.
End TriedValues.

(** ** consistent, exactly *)

Lemma allM_intro {A : Type} (p : A -> res bool) (l : list A) :
  (forall a, In a l -> p a = Ok true) -> allM p l = Ok true.
Proof.
  induction l as [|a l IH]; intros H; simpl; [reflexivity|].
  rewrite (H a) by now left. simpl. apply IH. intros b Hb. apply H. now right.
Qed.

Lemma NoDup_map_of_inj {A B : Type} (f : A -> B) (l : list A) :
  (forall x y, In x l -> In y l -> f x = f y -> x = y) ->
  NoDup l -> NoDup (map f l).
Proof.
  induction l as [|a l IH]; intros Hinj Hnd; simpl; [constructor|].
  inversion Hnd as [|? ? Ha Hl]; subst. constructor.
  - intros Hin. apply in_map_iff in Hin. destruct Hin as (b & E & Hb).
    assert (b = a) by (apply Hinj; [now right|now left|exact E]).
    subst. contradiction.
  - apply IH; [|assumption]. intros x y Hx Hy. apply Hinj; now right.
Qed.

Section ConsistentFacts.
Variable overlaps : Var -> Var -> option (nat * nat).

Lemma consistent_complete (a : assignment) :
  NoDup (dict_keys a) ->
  pairwise_distinct a -> lengths_match a -> overlaps_agree overlaps a ->
  consistent overlaps a = Ok true.
Proof.
  intros Hk Hd Hl Ho. unfold consistent.
  assert (Hnd : NoDup a) by (eapply NoDup_map_inv; exact Hk).
  assert (Hv : NoDup (dict_values a)).
  { apply NoDup_map_of_inj; [|exact Hnd]. intros [k1 v1] [k2 v2] H1 H2 E.
    simpl in E. subst v2. destruct (Var_eq_dec k1 k2) as [->|Hn]; [reflexivity|].
    exfalso. eapply (Hd k1 k2 v1 v1 Hn); try reflexivity; now apply In_dict_get. }
  unfold distinct_count. rewrite nodup_fixed_point by exact Hv.
  unfold dict_values. rewrite length_map, Nat.eqb_refl. simpl.
  assert (Hlen : forallb (fun '(var, val) => var_length var =? String.length val) a
                 = true).
  { apply forallb_forall. intros [var val] Hin. apply Nat.eqb_eq. symmetry.
    apply Hl. now apply In_dict_get. }
  rewrite Hlen. simpl. apply allM_intro. intros x Hx. apply allM_intro. intros y Hy.
  unfold agree. destruct (Var_eq_dec x y) as [|Hn]; [reflexivity|].
  destruct (overlaps x y) as [[i j]|] eqn:E; [|reflexivity].
  destruct (dict_key_get Var_eq_dec a x Hx) as [wx Hwx].
  destruct (dict_key_get Var_eq_dec a y Hy) as [wy Hwy].
  destruct (Ho x y i j wx wy Hn E Hwx Hwy) as (c & Hc1 & Hc2).
  unfold getitem, index. rewrite Hwx, Hwy. simpl. rewrite Hc1. simpl.
  rewrite Hc2. simpl. now destruct (ascii_dec c c).
Qed.

(** A one-word assignment passes [consistent] when the word has the length
    of its variable. *)
Lemma consistent_single (var : Var) (val : word) :
  consistent overlaps [(var, val)] = Ok (var_length var =? String.length val).
Proof.
  unfold consistent. simpl. destruct (var_length var =? String.length val); simpl;
    [|reflexivity].
  unfold agree. now destruct (Var_eq_dec var var).
Qed.
End ConsistentFacts.

(** ** The answer "no solution" *)

Lemma enforce_node_consistency_get (d : domains) (v : Var) (ws : list word) :
  dict_get Var_eq_dec d v = Some ws ->
  dict_get Var_eq_dec (enforce_node_consistency d) v
  = Some (filter (fun val => String.length val =? var_length v) ws).
Proof.
  induction d as [|[k u] d IH]; simpl; [discriminate|].
  destruct (Var_eq_dec v k) as [->|Hn]; intros H; [|auto].
  now inversion H.
Qed.

Lemma fits_enforce (d : domains) (a : assignment) :
  fits d a -> lengths_match a -> fits (enforce_node_consistency d) a.
Proof.
  intros Hf Hl v ws' Hv.
  destruct (dict_get Var_eq_dec d v) as [ws|] eqn:E.
  - rewrite (enforce_node_consistency_get _ _ E) in Hv. inversion Hv; subst.
    destruct (Hf v ws E) as (w & Hw & Hin). exists w. split; [assumption|].
    apply filter_In. split; [assumption|]. apply Nat.eqb_eq. now apply Hl.
  - exfalso. apply dict_get_Some_key in Hv.
    rewrite (narrows_keys (enforce_node_consistency_narrows d)) in Hv.
    apply dict_get_None in E. contradiction.
Qed.

Section NoSolution.
Variable variables : list Var.
Variable overlaps : Var -> Var -> option (nat * nat).

Lemma solve_none_no_fit (doms d' : domains) (n : nat) (a : assignment) :
  solve variables overlaps doms = Ok (None, d', n) ->
  fits doms a -> lengths_match a -> overlaps_agree overlaps a -> False.
Proof.
  unfold solve. intros H Hf Hl Ho.
  bind_inv H as bd Hac3. destruct bd as [b d1]. bind_inv H as r Hr.
  inversion H; subst. clear H. rename H1 into Hres.
  assert (Hf1 : fits d' a).
  { unfold ac3 in Hac3. eapply ac3_loop_fits; [exact Ho| | |exact Hac3].
    - now apply fits_enforce.
    - apply arcs_helper_proper. }
  destruct (backtrack_none _ _ _ _ _ Hr Hres) as (_ & _ & var & vals & Hs & Hv & Hall).
  apply select_unassigned_variable_spec in Hs. destruct Hs as ([Hk _] & _).
  destruct (dict_key_get Var_eq_dec d' var Hk) as [dv Hdv].
  destruct (Hf1 var dv Hdv) as (w & Hw & Hin).
  apply (order_domain_values_In _ _ _ _ _ Hv Hdv) in Hin.
  specialize (Hall w Hin). simpl in Hall. rewrite consistent_single in Hall.
  inversion Hall as [E]. apply Nat.eqb_neq in E. apply E. symmetry. now apply Hl.
Qed.
End NoSolution.

(** ** The returned assignment extends the given one *)

Lemma extends_refl (a : assignment) : extends a a.
Proof. intros v w H. exact H. Qed.

Lemma extends_set (a a' : assignment) (var : Var) (val : word) :
  dict_mem Var_eq_dec a var = false ->
  extends (dict_set Var_eq_dec a var val) a' -> extends a a'.
Proof.
  intros Hm He v w Hv. apply He. rewrite dict_get_set_neq; [exact Hv|].
  intros ->. unfold dict_mem in Hm. rewrite Hv in Hm. discriminate.
Qed.

Section ExtendFacts.
Variable variables : list Var.
Variable overlaps : Var -> Var -> option (nat * nat).

Lemma backtrack_loop_extends (recurse : assignment -> res search) (doms : domains)
      (var : Var) (a : assignment) :
  dict_mem Var_eq_dec a var = false ->
  (forall a1 r a', recurse a1 = Ok r -> result r = Some a' ->
                   extends a1 a' /\ assignment_complete doms (Some a') = Ok true) ->
  forall (vals : list word) (copy : assignment) (n : nat) (r : search) (a' : assignment),
    backtrack_loop overlaps recurse doms var vals a copy n = Ok r ->
    result r = Some a' -> extends a a'.
Proof.
  intros Hm Hrec. induction vals as [|val vals IH]; intros copy n r a' H Hres.
  - simpl in H. inversion H; subst. discriminate.
  - simpl in H. bind_inv H as ok Hok. destruct ok; [|eapply IH; eauto].
    bind_inv H as r1 Hr1. bind_inv H as c Hc.
    assert (c = true).
    { eapply assignment_complete_result; [|exact Hc]. intros; eapply Hrec; eauto. }
    subst c. inversion H; subst. simpl in Hres.
    eapply extends_set; [exact Hm|]. eapply Hrec; eauto.
Qed.

Lemma backtrack_extends (fuel : nat) (doms : domains) :
  forall (a : assignment) (r : search) (a' : assignment),
    backtrack variables overlaps fuel doms a = Ok r -> result r = Some a' ->
    extends a a' /\ assignment_complete doms (Some a') = Ok true.
Proof.
  induction fuel as [|fuel IH]; intros a r a' H Hres; [discriminate|].
  split; [|eapply backtrack_complete; eauto].
  simpl in H.
  destruct (forallb (fun var => dict_mem Var_eq_dec a var) (dict_keys doms)) eqn:Ec.
  - inversion H; subst. simpl in Hres. inversion Hres; subst. apply extends_refl.
  - bind_inv H as var Hvar. bind_inv H as vals Hvals.
    apply select_unassigned_variable_spec in Hvar. destruct Hvar as ([_ Hm] & _).
    eapply backtrack_loop_extends; [exact Hm|exact IH|exact H|exact Hres].
Qed.
End ExtendFacts.

(** ** select_unassigned_variable with nothing left to select *)

Lemma filter_nil_iff {A : Type} (f : A -> bool) (l : list A) :
  filter f l = [] <-> forall a, In a l -> f a = false.
Proof.
  induction l as [|b l IH]; simpl; [tauto|]. destruct (f b) eqn:E.
  - split; [discriminate|]. intros H. specialize (H b (or_introl eq_refl)). congruence.
  - rewrite IH. split; intros H a; [intros [<-|Ha]; auto | intros Ha; apply H; auto].
Qed.

Lemma select_nothing (variables : list Var)
      (overlaps : Var -> Var -> option (nat * nat)) (doms : domains) (a : assignment) :
  (forall u, ~ unassigned doms a u) ->
  select_unassigned_variable variables overlaps doms a = Raise IndexError.
Proof.
  intros H. unfold select_unassigned_variable.
  assert (E : filter (fun var => negb (dict_mem Var_eq_dec a var)) (dict_keys doms) = []).
  { apply filter_nil_iff. intros u Hu. apply negb_false_iff.
    destruct (dict_mem Var_eq_dec a u) eqn:Em; [reflexivity|].
    exfalso. apply (H u). now split. }
  rewrite E. reflexivity.
Qed.

(** ** __init__ *)

Lemma init_domains_fold (words : list word) (vs : list Var) :
  forall (acc : domains) (v : Var),
    dict_get Var_eq_dec
             (fold_left (fun d var => dict_set Var_eq_dec d var words) vs acc) v
    = if in_dec Var_eq_dec v vs then Some words else dict_get Var_eq_dec acc v.
Proof.
  induction vs as [|u vs IH]; intros acc v; simpl; [reflexivity|].
  rewrite IH. destruct (in_dec Var_eq_dec v vs) as [Hin|Hnin].
  - destruct (Var_eq_dec u v); reflexivity.
  - destruct (Var_eq_dec u v) as [->|Hn].
    + apply dict_get_set_eq.
    + now apply dict_get_set_neq.
Qed.

Lemma init_domains_fold_keys (words : list word) (vs : list Var) :
  forall acc : domains,
    NoDup (dict_keys acc ++ vs) ->
    dict_keys (fold_left (fun d var => dict_set Var_eq_dec d var words) vs acc)
    = dict_keys acc ++ vs.
Proof.
  induction vs as [|u vs IH]; intros acc Hnd; simpl; [now rewrite app_nil_r|].
  assert (Hu : ~ In u (dict_keys acc)).
  { apply NoDup_remove_2 in Hnd. intros Hin. apply Hnd. apply in_or_app. now left. }
  rewrite IH; rewrite dict_keys_set_new by exact Hu.
  - now rewrite <- app_assoc.
  - now rewrite <- app_assoc.
Qed.

(** ** More fuel does not change what ac3 returns *)

Lemma ac3_loop_more_fuel (variables : list Var)
      (overlaps : Var -> Var -> option (nat * nat)) (fuel : nat) :
  forall (d : domains) (arcs : list arc) (fuel' : nat),
    fuel <= fuel' ->
    ac3_loop variables overlaps fuel d arcs <> Timeout ->
    ac3_loop variables overlaps fuel' d arcs = ac3_loop variables overlaps fuel d arcs.
Proof.
  induction fuel as [|fuel IH]; intros d arcs fuel' Hle Hnt; [now contradiction Hnt|].
  destruct fuel' as [|fuel']; [lia|]. simpl in *.
  destruct (ac3_step variables overlaps d arcs) as [[b d1|d1 arcs1]| |]; simpl in *;
    try reflexivity.
  apply IH; [lia|exact Hnt].
Qed.

(** ** letter_grid *)

Lemma list_set_length {A : Type} (l : list A) (n : nat) (a : A) :
  List.length (list_set l n a) = List.length l.
Proof.
  revert n. induction l as [|h t IH]; intros [|n]; simpl; auto.
Qed.

Lemma nth_error_list_set_eq {A : Type} (l : list A) (n : nat) (a : A) :
  n < List.length l -> nth_error (list_set l n a) n = Some a.
Proof.
  revert n. induction l as [|h t IH]; intros [|n]; simpl; intros H; try lia; auto.
  apply IH. lia.
Qed.

Lemma nth_error_list_set_neq {A : Type} (l : list A) (n m : nat) (a : A) :
  n <> m -> nth_error (list_set l n a) m = nth_error l m.
Proof.
  revert n m. induction l as [|h t IH]; intros [|n] [|m]; simpl; intros H;
    try reflexivity; try congruence.
  apply IH. congruence.
Qed.

Lemma list_set_Forall {A : Type} (P : A -> Prop) (l : list A) (n : nat) (a : A) :
  Forall P l -> P a -> Forall P (list_set l n a).
Proof.
  revert n. induction l as [|h t IH]; intros [|n] Hl Ha; simpl; auto;
    inversion Hl; subst; constructor; auto.
Qed.

Lemma foldM_map {S A B : Type} (f : S -> B -> res S) (g : A -> B) (l : list A) (s : S) :
  foldM f (map g l) s = foldM (fun s a => f s (g a)) l s.
Proof.
  revert s. induction l as [|a l IH]; intros s; simpl; [reflexivity|].
  destruct (f s (g a)); simpl; auto.
Qed.

Lemma foldM_flat_map {S A B : Type} (f : S -> B -> res S) (h : A -> list B)
      (l : list A) (s : S) :
  foldM f (flat_map h l) s = foldM (fun s a => foldM f (h a) s) l s.
Proof.
  revert s. induction l as [|a l IH]; intros s; simpl; [reflexivity|].
  revert s. induction (h a) as [|b t IHt]; intros s; simpl; [apply IH|].
  destruct (f s b); simpl; auto.
Qed.

Lemma foldM_ext {S A : Type} (f g : S -> A -> res S) (l : list A) (s : S) :
  (forall s a, f s a = g s a) -> foldM f l s = foldM g l s.
Proof.
  intros H. revert s. induction l as [|a l IH]; intros s; simpl; [reflexivity|].
  rewrite H. destruct (g s a); simpl; auto.
Qed.

Lemma letter_grid_writes (width height : nat) (a : assignment) :
  letter_grid width height a = foldM write_cell (writes a) (blank width height).
Proof.
  unfold letter_grid, writes. rewrite foldM_flat_map. apply foldM_ext.
  intros g [v w]. rewrite foldM_map. apply foldM_ext. intros g' k.
  unfold letter_body, write_cell, index. destruct (cell_of v k) as [i j].
  destruct (get k w); reflexivity.
Qed.

Lemma writes_letters (a : assignment) (i j : nat) (c : option ascii) :
  In (i, j, c) (writes a) -> exists c', c = Some c'.
Proof.
  unfold writes. intros H. apply in_flat_map in H. destruct H as ([v w] & _ & H).
  apply in_map_iff in H. destruct H as (k & E & Hk). apply in_seq in Hk.
  inversion E; subst. apply get_Some. lia.
Qed.

Section LetterGridFacts.
Variable width height : nat.

Lemma blank_well_shaped : well_shaped width height (blank width height).
Proof.
  unfold well_shaped, blank. split; [apply repeat_length|].
  apply Forall_forall. intros row H. apply repeat_spec in H. subst.
  apply repeat_length.
Qed.

Lemma blank_cell (i j : nat) :
  i < height -> j < width -> get_cell (blank width height) i j = Some None.
Proof.
  intros Hi Hj. unfold get_cell, blank.
  rewrite (nth_error_repeat (repeat None width) Hi).
  apply (nth_error_repeat None Hj).
Qed.

Lemma set_cell_inside (g : grid) (i j : nat) (c : ascii) :
  well_shaped width height g -> i < height -> j < width ->
  exists g', set_cell g i j c = Ok g' /\ well_shaped width height g'
             /\ forall i' j', get_cell g' i' j'
                              = if (i =? i') && (j =? j') then Some (Some c)
                                else get_cell g i' j'.
Proof.
  intros [Hlen Hrows] Hi Hj. unfold set_cell.
  destruct (nth_error g i) as [row|] eqn:Er.
  2:{ apply nth_error_None in Er. lia. }
  assert (Hrow : List.length row = width).
  { rewrite Forall_forall in Hrows. apply Hrows. eapply nth_error_In; eauto. }
  assert (Hjb : (j <? List.length row) = true) by (apply Nat.ltb_lt; lia).
  rewrite Hjb. eexists. split; [reflexivity|]. split.
  - split; [now rewrite list_set_length|].
    apply list_set_Forall; [assumption|]. now rewrite list_set_length.
  - intros i' j'. unfold get_cell. destruct (Nat.eqb_spec i i') as [<-|Hne]; simpl.
    + rewrite nth_error_list_set_eq by lia.
      destruct (Nat.eqb_spec j j') as [<-|Hnj].
      * apply nth_error_list_set_eq. lia.
      * rewrite nth_error_list_set_neq by assumption. now rewrite Er.
    + now rewrite nth_error_list_set_neq.
Qed.

Lemma set_cell_outside (g : grid) (i j : nat) (c : ascii) :
  well_shaped width height g -> ~ (i < height /\ j < width) ->
  set_cell g i j c = Raise IndexError.
Proof.
  intros [Hlen Hrows] Hout. unfold set_cell.
  destruct (nth_error g i) as [row|] eqn:Er; [|reflexivity].
  assert (Hrow : List.length row = width).
  { rewrite Forall_forall in Hrows. apply Hrows. eapply nth_error_In; eauto. }
  assert (Hi : i < height).
  { rewrite <- Hlen. apply nth_error_Some. congruence. }
  destruct (j <? List.length row) eqn:E; [|reflexivity].
  apply Nat.ltb_lt in E. exfalso. apply Hout. split; lia.
Qed.

Lemma write_cells_inside (ws : list (nat * nat * option ascii)) :
  (forall i j c, In (i, j, c) ws -> i < height /\ j < width /\ exists c', c = Some c') ->
  forall g, well_shaped width height g ->
  exists g', foldM write_cell ws g = Ok g' /\ well_shaped width height g'
             /\ forall i j cur, get_cell g i j = Some cur ->
                                get_cell g' i j = Some (last_write ws i j cur).
Proof.
  induction ws as [|[[i j] c] ws IH]; intros Hin g Hg.
  - exists g. simpl. auto.
  - destruct (Hin i j c (or_introl eq_refl)) as (Hi & Hj & c' & ->).
    destruct (set_cell_inside c' Hg Hi Hj) as (g1 & Hs & Hg1 & Hc1).
    destruct (IH (fun i0 j0 c0 H => Hin i0 j0 c0 (or_intror H)) g1 Hg1)
      as (g' & Hf & Hg' & Hc').
    exists g'. simpl. rewrite Hs. simpl. split; [exact Hf|]. split; [exact Hg'|].
    intros i0 j0 cur Hcur. unfold last_write. simpl.
    fold (last_write ws i0 j0 (if (i =? i0) && (j =? j0) then Some c' else cur)).
    apply Hc'. rewrite Hc1. destruct ((i =? i0) && (j =? j0)); [reflexivity|exact Hcur].
Qed.

Lemma write_cells_outside (ws : list (nat * nat * option ascii)) :
  (exists i j c, In (i, j, c) ws /\ ~ (i < height /\ j < width)) ->
  forall g, well_shaped width height g ->
            foldM write_cell ws g = Raise IndexError.
Proof.
  induction ws as [|[[i j] c] ws IH]; intros (i0 & j0 & c0 & Hin & Hout) g Hg.
  - destruct Hin.
  - simpl. destruct c as [c|]; [|reflexivity].
    destruct (Nat.lt_ge_cases i height) as [Hi|Hi];
      [destruct (Nat.lt_ge_cases j width) as [Hj|Hj]|].
    + destruct (set_cell_inside c Hg Hi Hj) as (g1 & Hs & Hg1 & _).
      rewrite Hs. simpl. apply IH; [|exact Hg1].
      destruct Hin as [E|Hin]; [inversion E; subst; exfalso; apply Hout; auto|eauto 6].
    + rewrite set_cell_outside; [reflexivity|exact Hg|lia].
    + rewrite set_cell_outside; [reflexivity|exact Hg|lia].
Qed.
End LetterGridFacts.

(** ** A store that is already arc consistent *)

Lemma filter_forallb {A : Type} (f : A -> bool) (l : list A) :
  forallb f l = true -> filter f l = l.
Proof.
  induction l as [|a l IH]; simpl; [reflexivity|].
  destruct (f a); simpl; [|discriminate]. intros H. now rewrite IH.
Qed.

Section StableFacts.
Variable variables : list Var.
Variable overlaps : Var -> Var -> option (nat * nat).

Lemma ac3_loop_stable (d : domains) (arcs : list arc) :
  (forall x y, In (x, y) arcs -> revise overlaps d x y = Ok (false, d)) ->
  forall fuel, List.length arcs < fuel ->
               ac3_loop variables overlaps fuel d arcs = Ok (true, d).
Proof.
  induction arcs as [|[x y] arcs IH]; intros Hrev fuel Hf;
    (destruct fuel as [|fuel]; [lia|]); simpl.
  - reflexivity.
  - rewrite (Hrev x y (or_introl eq_refl)). simpl.
    apply IH; [|simpl in Hf; lia]. intros x' y' H. apply Hrev. now right.
Qed.

Lemma arcs_helper_In (d : domains) (x y : Var) :
  In (x, y) (arcs_helper variables overlaps d)
  <-> In x (dict_keys d) /\ In y (neighbors variables overlaps x).
Proof.
  unfold arcs_helper. rewrite in_flat_map. split.
  - intros (v & Hv & H). apply in_map_iff in H. destruct H as (n & E & Hn).
    inversion E; subst. auto.
  - intros [Hx Hy]. exists x. split; [assumption|]. apply in_map_iff. eauto.
Qed.

Lemma revise_stable (d : domains) (x y : Var) :
  well_formed overlaps -> node_consistent d -> covers variables d ->
  arc_consistent variables overlaps d ->
  In x variables -> In y (neighbors variables overlaps x) ->
  revise overlaps d x y = Ok (false, d).
Proof.
  intros Hwf Hnc Hcov Hac Hx Hy.
  destruct (neighbors_overlap variables Hwf x y Hy) as (Hyv & _ & i & j & Ho & Hi & Hj).
  destruct (dict_key_get Var_eq_dec d x (Hcov x Hx)) as [dx Hdx].
  destruct (dict_key_get Var_eq_dec d y (Hcov y Hyv)) as [dy Hdy].
  assert (Hall : forallb (has_support i j dy) dx = true).
  { apply forallb_forall. intros w Hw.
    destruct (Hac x y i j dx w Hx Hy Ho Hdx Hw) as (dy' & w' & c & Hdy' & Hw' & Hc & Hc').
    assert (dy' = dy) by congruence. subst dy'.
    apply existsb_exists. exists w'. split; [assumption|].
    unfold compatible. rewrite Hc, Hc'. now destruct (ascii_dec c c). }
  rewrite (@revise_result overlaps d x y i j dx dy Ho Hdx Hdy).
  - rewrite Hall, (filter_forallb _ _ Hall). simpl. now rewrite dict_set_same.
  - intros w Hw. rewrite (Hnc x dx (dict_get_In _ _ _ Hdx) w Hw). exact Hi.
  - intros w Hw. rewrite (Hnc y dy (dict_get_In _ _ _ Hdy) w Hw). exact Hj.
Qed.
End StableFacts.

Lemma arc_consistent_of_test (variables : list Var)
      (overlaps : Var -> Var -> option (nat * nat)) (doms : domains) :
  arc_consistentb variables overlaps doms = true ->
  arc_consistent variables overlaps doms.
Proof.
  unfold arc_consistentb. intros H x y i j dx w Hx Hy Ho Hdx Hw.
  rewrite forallb_forall in H. specialize (H x Hx). rewrite Hdx in H.
  rewrite forallb_forall in H. specialize (H y Hy).
  rewrite forallb_forall in H. specialize (H w Hw).
  unfold supportedb in H. rewrite Ho in H.
  destruct (dict_get Var_eq_dec doms y) as [dy|]; [|discriminate].
  apply existsb_exists in H. destruct H as (w' & Hw' & H).
  destruct (get i w) as [a|]; [|discriminate].
  destruct (get j w') as [b|] eqn:Eb; [|discriminate].
  destruct (ascii_dec a b); [|discriminate]. subst. exists dy, w', b. auto.
Qed.

(** ** Properties of the solver beyond the claims *)

(** X1. __init__: every variable of the puzzle starts with the whole word
    list as its domain, and nothing else is a key of the store. *)
Theorem init_domains_lookup (variables : list Var) (words : list word) (v : Var) :
  dict_get Var_eq_dec (init_domains variables words) v
  = if in_dec Var_eq_dec v variables then Some words else None.
Proof. unfold init_domains. now rewrite init_domains_fold. Qed.

(** X2. enforce_node_consistency keeps the keys of the store, leaves in each
    domain exactly the words that have the length of the variable, and
    running it twice is running it once. *)
Theorem enforce_node_consistency_exact (doms : domains) (v : Var) :
  dict_keys (enforce_node_consistency doms) = dict_keys doms
  /\ dict_get Var_eq_dec (enforce_node_consistency doms) v
     = option_map (filter (fun val => String.length val =? var_length v))
                  (dict_get Var_eq_dec doms v)
  /\ enforce_node_consistency (enforce_node_consistency doms)
     = enforce_node_consistency doms.
Proof.
  split; [apply narrows_keys, enforce_node_consistency_narrows|]. split.
  - destruct (dict_get Var_eq_dec doms v) as [ws|] eqn:E; simpl.
    + now apply enforce_node_consistency_get.
    + apply dict_get_None. apply dict_get_None in E.
      now rewrite (narrows_keys (enforce_node_consistency_narrows doms)).
  - unfold enforce_node_consistency. rewrite map_map. apply map_ext.
    intros [var vals]. f_equal. rewrite filter_filter. apply filter_ext.
    intros w. now rewrite andb_diag.
Qed.

(** X3. revise(x, y), on domains whose words reach the overlap indices:
    the domain of x becomes the words of it that have a compatible word in
    the domain of y, no other domain changes, and the value returned is True
    exactly when a word was removed. *)
Theorem revise_keeps_supported (overlaps : Var -> Var -> option (nat * nat))
        (d : domains) (x y : Var) (i j : nat) (dx dy : list word) :
  overlaps x y = Some (i, j) ->
  dict_get Var_eq_dec d x = Some dx -> dict_get Var_eq_dec d y = Some dy ->
  (forall w, In w dx -> i < String.length w) ->
  (forall w, In w dy -> j < String.length w) ->
  revise overlaps d x y
  = Ok (negb (forallb (has_support i j dy) dx),
        dict_set Var_eq_dec d x (filter (has_support i j dy) dx)).
Proof. apply revise_result. Qed.

Lemma revise_keeps_supported_witness :
  revise Hook.overlaps Hook.doms Hook.X Hook.Y
  = Ok (negb (forallb (has_support 2 0 ["TREE"; "TANK"; "TOAD"; "GOAT"]%string)
                      ["CAT"; "DOG"; "DIM"]%string),
        dict_set Var_eq_dec Hook.doms Hook.X
                 (filter (has_support 2 0 ["TREE"; "TANK"; "TOAD"; "GOAT"]%string)
                         ["CAT"; "DOG"; "DIM"]%string)).
Proof.
  apply revise_keeps_supported; try reflexivity;
    intros w Hw; simpl in Hw; list_cases; simpl; lia.
Defined.

(** X4. After revise(x, y) on two different variables, x is arc consistent
    with y: a second revise(x, y) returns False and changes nothing. *)
Theorem revise_twice (overlaps : Var -> Var -> option (nat * nat))
        (d : domains) (x y : Var) (i j : nat) (dx dy : list word) :
  x <> y -> overlaps x y = Some (i, j) ->
  dict_get Var_eq_dec d x = Some dx -> dict_get Var_eq_dec d y = Some dy ->
  (forall w, In w dx -> i < String.length w) ->
  (forall w, In w dy -> j < String.length w) ->
  exists b d', revise overlaps d x y = Ok (b, d')
               /\ revise overlaps d' x y = Ok (false, d').
Proof.
  intros Hxy Ho Hx Hy Hi Hj. eexists. eexists.
  split; [exact (@revise_result overlaps d x y i j dx dy Ho Hx Hy Hi Hj)|].
  set (dx' := filter (has_support i j dy) dx).
  rewrite (@revise_result overlaps _ x y i j dx' dy Ho).
  - assert (Hall : forallb (has_support i j dy) dx' = true).
    { apply forallb_forall. intros w Hw. apply filter_In in Hw. apply Hw. }
    rewrite Hall, (filter_forallb _ _ Hall). simpl. now rewrite dict_set_set.
  - apply dict_get_set_eq.
  - rewrite dict_get_set_neq by assumption. exact Hy.
  - intros w Hw. apply Hi. apply filter_In in Hw. apply Hw.
  - exact Hj.
Qed.

Lemma revise_twice_witness :
  exists b d', revise Hook.overlaps Hook.doms Hook.X Hook.Y = Ok (b, d')
               /\ revise Hook.overlaps d' Hook.X Hook.Y = Ok (false, d').
Proof.
  apply (@revise_twice Hook.overlaps Hook.doms Hook.X Hook.Y 2 0
                       ["CAT"; "DOG"; "DIM"]%string
                       ["TREE"; "TANK"; "TOAD"; "GOAT"]%string);
    try reflexivity; try discriminate;
    intros w Hw; simpl in Hw; list_cases; simpl; lia.
Defined.

(** X5. The loop of ac3 makes at most
    len(arcs) + (number of variables + 1) * (total size of the domains)
    passes: with any fuel above that bound it ends, with the same result. *)
Theorem ac3_loop_bound (variables : list Var)
        (overlaps : Var -> Var -> option (nat * nat))
        (d : domains) (arcs : list arc) (fuel : nat) :
  ac3_measure variables d arcs < fuel ->
  ac3_loop variables overlaps fuel d arcs <> Timeout
  /\ ac3_loop variables overlaps fuel d arcs
     = ac3_loop variables overlaps (ac3_fuel variables d arcs) d arcs.
Proof.
  intros H. split; [now apply ac3_loop_terminates|].
  apply ac3_loop_more_fuel; [unfold ac3_fuel; lia|].
  apply ac3_loop_terminates. unfold ac3_fuel. lia.
Qed.

Lemma ac3_loop_bound_witness :
  ac3_loop Hook.variables Hook.overlaps 100 Hook.doms
           (arcs_helper Hook.variables Hook.overlaps Hook.doms) <> Timeout
  /\ ac3_loop Hook.variables Hook.overlaps 100 Hook.doms
              (arcs_helper Hook.variables Hook.overlaps Hook.doms)
     = ac3_loop Hook.variables Hook.overlaps
                (ac3_fuel Hook.variables Hook.doms
                          (arcs_helper Hook.variables Hook.overlaps Hook.doms))
                Hook.doms (arcs_helper Hook.variables Hook.overlaps Hook.doms).
Proof. apply ac3_loop_bound. vm_compute. lia. Defined.

(** X6. ac3 returns False only when the domain of some variable of the store
    is empty at the end. *)
Theorem ac3_false_empty_domain (variables : list Var)
        (overlaps : Var -> Var -> option (nat * nat))
        (d d' : domains) (arcs : option (list arc)) :
  ac3 variables overlaps d arcs = Ok (false, d') ->
  exists x, In x (dict_keys d) /\ dict_get Var_eq_dec d' x = Some [].
Proof.
  intros H. apply ac3_narrows in H. destruct H as [Hn He].
  destruct (He eq_refl) as [x Hx]. exists x. split; [|exact Hx].
  rewrite <- (narrows_keys Hn). eapply dict_get_Some_key; eauto.
Qed.

Lemma ac3_false_empty_domain_witness :
  exists x,
    In x (dict_keys (enforce_node_consistency
                       (init_domains Corner.variables Corner.words_unsolvable)))
    /\ dict_get Var_eq_dec [(Corner.A, []); (Corner.B, ["DOGS"%string])] x = Some [].
Proof.
  apply (@ac3_false_empty_domain Corner.variables Corner.overlaps _ _ None).
  vm_compute. reflexivity.
Defined.

Ltac store_cases H :=
  cbn [dict_get] in H;
  repeat match type of H with
         | context [Var_eq_dec ?a ?b] =>
             destruct (Var_eq_dec a b) as [->|];
             [inversion H; subst; eexists; split; [reflexivity|simpl; auto 10]|]
         end;
  try discriminate.

Lemma Hook_solution_fits : fits Hook.doms Hook.solution.
Proof. intros v ws H. unfold Hook.doms in H. store_cases H. Qed.

(** X7. ac3 never removes a word that a solution uses: an assignment that
    gives every variable a word of its domain and agrees at the overlaps
    still does so after ac3, and ac3 then returns True. *)
Theorem ac3_keeps_solutions (variables : list Var)
        (overlaps : Var -> Var -> option (nat * nat))
        (d d' : domains) (arcs : option (list arc)) (a : assignment) (b : bool) :
  fits d a -> overlaps_agree overlaps a ->
  (forall l, arcs = Some l -> proper l) ->
  ac3 variables overlaps d arcs = Ok (b, d') ->
  b = true /\ fits d' a.
Proof.
  intros Hf Ho Hp H.
  assert (Hf' : fits d' a).
  { unfold ac3 in H. eapply ac3_loop_fits; [exact Ho|exact Hf| |exact H].
    destruct arcs as [[|e l]|]; try apply arcs_helper_proper. now apply Hp. }
  split; [|exact Hf']. destruct b; [reflexivity|].
  apply ac3_narrows in H. destruct H as [_ He]. destruct (He eq_refl) as [x Hx].
  destruct (Hf' x [] Hx) as (w & _ & []).
Qed.

Lemma ac3_keeps_solutions_witness : true = true /\ fits Hook.doms_ac3 Hook.solution.
Proof.
  apply (@ac3_keeps_solutions Hook.variables Hook.overlaps Hook.doms Hook.doms_ac3 None).
  - exact Hook_solution_fits.
  - apply Hook_solution_ok.
  - discriminate.
  - vm_compute. reflexivity.
Defined.

(** X8. The answer None of solve is right: when solve returns None, no
    assignment gives every variable a word of its initial domain with the
    right length and with agreement at the overlaps. *)
Theorem solve_none_sound (variables : list Var)
        (overlaps : Var -> Var -> option (nat * nat))
        (doms d' : domains) (n : nat) :
  solve variables overlaps doms = Ok (None, d', n) ->
  ~ exists a, fits doms a /\ lengths_match a /\ overlaps_agree overlaps a.
Proof.
  intros H (a & Hf & Hl & Ho). eapply solve_none_no_fit; eauto.
Qed.

Lemma solve_none_sound_witness :
  ~ exists a, fits (init_domains Corner.variables Corner.words_unsolvable) a
              /\ lengths_match a /\ overlaps_agree Corner.overlaps a.
Proof.
  apply (@solve_none_sound Corner.variables Corner.overlaps _
                           [(Corner.A, []); (Corner.B, ["DOGS"%string])] 1).
  vm_compute. reflexivity.
Defined.

(** X9. select_unassigned_variable, when some variable is unassigned,
    returns an unassigned variable with the fewest remaining values and,
    among those, with the fewest neighbors. *)
Theorem select_unassigned_variable_mrv (variables : list Var)
        (overlaps : Var -> Var -> option (nat * nat))
        (doms : domains) (a : assignment) (u : Var) :
  unassigned doms a u ->
  exists v,
    select_unassigned_variable variables overlaps doms a = Ok v
    /\ unassigned doms a v
    /\ (forall u', unassigned doms a u' -> dom_size doms v <= dom_size doms u')
    /\ (forall u', unassigned doms a u' -> dom_size doms u' = dom_size doms v ->
                   degree variables overlaps v <= degree variables overlaps u').
Proof.
  intros Hu. destruct (select_unassigned_variable_total variables overlaps Hu) as [v Hv].
  exists v. split; [exact Hv|]. now apply select_unassigned_variable_spec.
Qed.

Lemma select_unassigned_variable_mrv_witness :
  exists v,
    select_unassigned_variable Hook.variables Hook.overlaps Hook.doms_ac3 [] = Ok v
    /\ unassigned Hook.doms_ac3 [] v
    /\ (forall u', unassigned Hook.doms_ac3 [] u' ->
                   dom_size Hook.doms_ac3 v <= dom_size Hook.doms_ac3 u')
    /\ (forall u', unassigned Hook.doms_ac3 [] u' ->
                   dom_size Hook.doms_ac3 u' = dom_size Hook.doms_ac3 v ->
                   degree Hook.variables Hook.overlaps v
                   <= degree Hook.variables Hook.overlaps u').
Proof.
  apply (@select_unassigned_variable_mrv Hook.variables Hook.overlaps
                                         Hook.doms_ac3 [] Hook.Y).
  split; [simpl; auto|reflexivity].
Defined.

(** X10. select_unassigned_variable raises IndexError exactly when no
    variable of the store is unassigned. *)
Theorem select_unassigned_variable_IndexError (variables : list Var)
        (overlaps : Var -> Var -> option (nat * nat))
        (doms : domains) (a : assignment) :
  select_unassigned_variable variables overlaps doms a = Raise IndexError
  <-> forall u, ~ unassigned doms a u.
Proof.
  split; [|apply select_nothing].
  intros H u Hu.
  destruct (select_unassigned_variable_total variables overlaps Hu) as [v Hv].
  congruence.
Qed.

(** X11. backtrack returns None only from a call that made no recursive
    call: every value of the selected variable failed [consistent], the dict
    it was given is unchanged, and it is the only call counted. *)
Theorem backtrack_none_without_recursion (variables : list Var)
        (overlaps : Var -> Var -> option (nat * nat))
        (fuel : nat) (doms : domains) (a : assignment) (r : search) :
  backtrack variables overlaps fuel doms a = Ok r -> result r = None ->
  heap r = a /\ calls r = 1
  /\ exists var vals,
       select_unassigned_variable variables overlaps doms a = Ok var
       /\ order_domain_values variables overlaps doms var a = Ok vals
       /\ forall val, In val vals ->
                      consistent overlaps (dict_set Var_eq_dec a var val) = Ok false.
Proof. apply backtrack_none. Qed.

Lemma backtrack_none_without_recursion_witness :
  heap (mkSearch None [(Hook.X, "CAT"%string)] 1) = [(Hook.X, "CAT"%string)]
  /\ calls (mkSearch None [(Hook.X, "CAT"%string)] 1) = 1
  /\ exists var vals,
       select_unassigned_variable Hook.variables Hook.overlaps Hook.doms_ac3
                                  [(Hook.X, "CAT"%string)] = Ok var
       /\ order_domain_values Hook.variables Hook.overlaps Hook.doms_ac3 var
                              [(Hook.X, "CAT"%string)] = Ok vals
       /\ forall val, In val vals ->
                      consistent Hook.overlaps
                                 (dict_set Var_eq_dec [(Hook.X, "CAT"%string)] var val)
                      = Ok false.
Proof.
  apply (@backtrack_none_without_recursion Hook.variables Hook.overlaps 3 Hook.doms_ac3).
  - vm_compute. reflexivity.
  - reflexivity.
Defined.

(** X12. backtrack on a consistent partial assignment: an assignment it
    returns keeps every word already assigned, gives a word to every variable
    of the store, and its words are pairwise distinct, have the lengths of
    their variables and agree at the overlaps. *)
Theorem backtrack_partial_sound (variables : list Var)
        (overlaps : Var -> Var -> option (nat * nat))
        (fuel : nat) (doms : domains) (a a' : assignment) (r : search) :
  good overlaps a ->
  backtrack variables overlaps fuel doms a = Ok r -> result r = Some a' ->
  extends a a'
  /\ (forall v, In v (dict_keys doms) -> exists w, dict_get Var_eq_dec a' v = Some w)
  /\ pairwise_distinct a' /\ lengths_match a' /\ overlaps_agree overlaps a'.
Proof.
  intros Hg H Hres.
  destruct (@backtrack_extends variables overlaps fuel doms a r a' H Hres) as [He Hc].
  destruct (@backtrack_sound variables overlaps fuel doms a r a' Hg H Hres)
    as [[Hnd Hcons] _].
  split; [exact He|]. split; [|now apply consistent_sound].
  intros v Hv. apply dict_key_get. apply (proj1 (dict_mem_true Var_eq_dec a' v)).
  simpl in Hc. injection Hc as Hf. rewrite forallb_forall in Hf. now apply Hf.
Qed.

Lemma backtrack_partial_sound_witness :
  extends [(Corner.A, "CAT"%string)]
          [(Corner.A, "CAT"%string); (Corner.B, "COGS"%string)]
  /\ (forall v, In v (dict_keys [(Corner.A, ["CAT"%string]); (Corner.B, ["COGS"%string])]) ->
                exists w, dict_get Var_eq_dec
                                   [(Corner.A, "CAT"%string); (Corner.B, "COGS"%string)] v
                          = Some w)
  /\ pairwise_distinct [(Corner.A, "CAT"%string); (Corner.B, "COGS"%string)]
  /\ lengths_match [(Corner.A, "CAT"%string); (Corner.B, "COGS"%string)]
  /\ overlaps_agree Corner.overlaps
                    [(Corner.A, "CAT"%string); (Corner.B, "COGS"%string)].
Proof.
  apply (@backtrack_partial_sound Corner.variables Corner.overlaps 3
           [(Corner.A, ["CAT"%string]); (Corner.B, ["COGS"%string])]
           [(Corner.A, "CAT"%string)] _
           (mkSearch (Some [(Corner.A, "CAT"%string); (Corner.B, "COGS"%string)])
                     [(Corner.A, "CAT"%string); (Corner.B, "COGS"%string)] 2)).
  - split; [repeat constructor; simpl; tauto|reflexivity].
  - vm_compute. reflexivity.
  - reflexivity.
Defined.

(** X13. solve always ends, with a value or with a Python exception: the
    loop of ac3 is bounded, and backtrack never recurses deeper than the
    number of variables of the store. *)
Theorem solve_always_ends (variables : list Var)
        (overlaps : Var -> Var -> option (nat * nat)) (doms : domains) :
  (exists v, solve variables overlaps doms = Ok v)
  \/ (exists e, solve variables overlaps doms = Raise e).
Proof.
  pose proof (solve_not_Timeout variables overlaps doms) as H.
  destruct (solve variables overlaps doms) as [v|e|]; eauto. contradiction.
Qed.

(** X14. consistent, on a dict: it returns True exactly when the words are
    pairwise distinct, each has the length of its variable, and the words of
    two different variables that overlap agree at the overlap indices. *)
Theorem consistent_iff (overlaps : Var -> Var -> option (nat * nat)) (a : assignment) :
  NoDup (dict_keys a) ->
  (consistent overlaps a = Ok true
   <-> pairwise_distinct a /\ lengths_match a /\ overlaps_agree overlaps a).
Proof.
  intros Hk. split.
  - now apply consistent_sound.
  - intros (Hd & Hl & Ho). now apply consistent_complete.
Qed.

Lemma consistent_iff_witness :
  consistent Hook.overlaps Hook.solution = Ok true
  <-> pairwise_distinct Hook.solution /\ lengths_match Hook.solution
      /\ overlaps_agree Hook.overlaps Hook.solution.
Proof.
  apply consistent_iff. repeat constructor; simpl; intuition discriminate.
Defined.

Lemma letter_grid_ok (width height : nat) (a : assignment) :
  inside width height a ->
  exists g,
    letter_grid width height a = Ok g /\ well_shaped width height g
    /\ forall i j, i < height -> j < width ->
                   get_cell g i j = Some (letter_at a i j).
Proof.
  intros Hin. rewrite letter_grid_writes.
  destruct (@write_cells_inside width height (writes a)) with (g := blank width height)
    as (g & Hg & Hs & Hc).
  - intros i j c H. destruct (Hin i j c H) as [Hi Hj].
    repeat split; try assumption. eapply writes_letters; eauto.
  - apply blank_well_shaped.
  - exists g. repeat split; try assumption; try apply Hs.
    intros i j Hi Hj. apply Hc. now apply blank_cell.
Qed.

(** X15. letter_grid, when every word stays inside the grid: the result has
    [height] rows of [width] cells, and each cell holds the letter that the
    assignment writes there last, or None where no word passes. *)
Theorem letter_grid_cells (width height : nat) (a : assignment) :
  inside width height a ->
  exists g,
    letter_grid width height a = Ok g /\ well_shaped width height g
    /\ forall i j, i < height -> j < width ->
                   get_cell g i j = Some (letter_at a i j).
Proof.
  apply letter_grid_ok.
Qed.

Lemma letter_grid_cells_witness :
  exists g,
    letter_grid 3 4 [(Corner.A, "CAT"%string); (Corner.B, "COGS"%string)] = Ok g
    /\ well_shaped 3 4 g
    /\ forall i j, i < 4 -> j < 3 ->
                   get_cell g i j
                   = Some (letter_at [(Corner.A, "CAT"%string);
                                      (Corner.B, "COGS"%string)] i j).
Proof.
  apply letter_grid_cells. intros i j c H. vm_compute in H.
  list_cases; split; lia.
Defined.

(** X16. letter_grid raises IndexError as soon as a letter of some word
    falls outside the grid. *)
Theorem letter_grid_outside (width height : nat) (a : assignment) :
  (exists i j c, In (i, j, c) (writes a) /\ ~ (i < height /\ j < width)) ->
  letter_grid width height a = Raise IndexError.
Proof.
  intros H. rewrite letter_grid_writes.
  apply (@write_cells_outside width height); [exact H|apply blank_well_shaped].
Qed.

Lemma letter_grid_outside_witness :
  letter_grid 3 3 [(Corner.A, "CAT"%string); (Corner.B, "COGS"%string)]
  = Raise IndexError.
Proof.
  apply letter_grid_outside. exists 3, 0, (Some "S"%char). split.
  - vm_compute. auto 10.
  - lia.
Defined.

(** X17. In a store with at least one variable, when the recursive call on
    a value that passed [consistent] returns None, the loop of backtrack
    raises TypeError, whatever values are left to try. *)
Theorem backtrack_loop_raises (overlaps : Var -> Var -> option (nat * nat))
        (recurse : assignment -> res search) (doms : domains) (var : Var)
        (val : word) (vals : list word) (a copy : assignment) (n : nat) (r : search) :
  dict_keys doms <> [] ->
  consistent overlaps (dict_set Var_eq_dec copy var val) = Ok true ->
  recurse (dict_set Var_eq_dec a var val) = Ok r ->
  result r = None ->
  backtrack_loop overlaps recurse doms var (val :: vals) a copy n = Raise TypeError.
Proof. apply backtrack_loop_failed_branch. Qed.

Lemma backtrack_loop_raises_witness :
  backtrack_loop Hook.overlaps (backtrack Hook.variables Hook.overlaps 3 Hook.doms_ac3)
                 Hook.doms_ac3 Hook.X ["CAT"; "DOG"]%string [] [] 1
  = Raise TypeError.
Proof.
  apply (@backtrack_loop_raises Hook.overlaps _ Hook.doms_ac3 Hook.X "CAT"%string
                                ["DOG"%string] [] [] 1
                                (mkSearch None [(Hook.X, "CAT"%string)] 1)).
  - discriminate.
  - reflexivity.
  - vm_compute. reflexivity.
  - reflexivity.
Defined.

(** X18. arcs_helper lists exactly the arcs (x, y) with x a variable of the
    store and y a variable of the puzzle, other than x, that overlaps it. *)
Theorem arcs_helper_arcs (variables : list Var)
        (overlaps : Var -> Var -> option (nat * nat)) (doms : domains) (x y : Var) :
  In (x, y) (arcs_helper variables overlaps doms)
  <-> In x (dict_keys doms) /\ In y variables /\ y <> x /\ overlaps y x <> None.
Proof.
  rewrite arcs_helper_In. unfold neighbors. rewrite filter_In.
  destruct (Var_eq_dec y x) as [->|Hn].
  - split; [intros (_ & _ & H); discriminate | intros (_ & _ & H & _); congruence].
  - destruct (overlaps y x); split; intros H; intuition (try congruence; try discriminate).
Qed.

(** X19. On a well-formed puzzle, ac3 leaves a node-consistent store that is
    already arc consistent as it is, and returns True. *)
Theorem ac3_arc_consistent_stable (variables : list Var)
        (overlaps : Var -> Var -> option (nat * nat)) (d : domains) :
  well_formed overlaps -> node_consistent d ->
  covers variables d -> incl (dict_keys d) variables ->
  arc_consistent variables overlaps d ->
  ac3 variables overlaps d None = Ok (true, d).
Proof.
  intros Hwf Hnc Hcov Hk Hac. unfold ac3. apply ac3_loop_stable.
  - intros x y Hin. apply arcs_helper_In in Hin. destruct Hin as [Hx Hy].
    apply (@revise_stable variables); auto.
  - unfold ac3_fuel, ac3_measure. lia.
Qed.

Lemma ac3_arc_consistent_stable_witness :
  ac3 Hook.variables Hook.overlaps Hook.doms_ac3 None = Ok (true, Hook.doms_ac3).
Proof.
  apply ac3_arc_consistent_stable.
  - apply Hook_well_formed.
  - apply Hook_doms_ac3_ok.
  - apply Hook_doms_ac3_ok.
  - intros v Hv. simpl in Hv. unfold Hook.variables. simpl. tauto.
  - apply arc_consistent_of_test. vm_compute. reflexivity.
Defined.

(** ** The words of the answer come from the domains *)

Section WithinFacts.
Variable variables : list Var.
Variable overlaps : Var -> Var -> option (nat * nat).

Lemma within_set (doms : domains) (a : assignment) (var : Var) (val : word)
      (dv : list word) :
  within doms a -> dict_get Var_eq_dec doms var = Some dv -> In val dv ->
  within doms (dict_set Var_eq_dec a var val).
Proof.
  intros Hw Hdv Hin v w Hv. destruct (Var_eq_dec var v) as [->|Hn].
  - rewrite dict_get_set_eq in Hv. inversion Hv; subst. eauto.
  - rewrite dict_get_set_neq in Hv by assumption. now apply Hw.
Qed.

Lemma backtrack_loop_within (recurse : assignment -> res search) (doms : domains)
      (var : Var) (dv : list word) (a : assignment) :
  dict_get Var_eq_dec doms var = Some dv -> within doms a ->
  (forall a1 r a', within doms a1 -> recurse a1 = Ok r -> result r = Some a' ->
                   within doms a') ->
  (forall a1 r a', recurse a1 = Ok r -> result r = Some a' ->
                   assignment_complete doms (Some a') = Ok true) ->
  forall (vals : list word) (copy : assignment) (n : nat) (r : search) (a' : assignment),
    incl vals dv ->
    backtrack_loop overlaps recurse doms var vals a copy n = Ok r ->
    result r = Some a' -> within doms a'.
Proof.
  intros Hdv Hw Hrec Hcomp.
  induction vals as [|val vals IH]; intros copy n r a' Hincl H Hres.
  - simpl in H. inversion H; subst. discriminate.
  - simpl in H. bind_inv H as ok Hok.
    assert (Hincl' : incl vals dv) by (intros u Hu; apply Hincl; now right).
    destruct ok; [|eapply IH; eauto].
    bind_inv H as r1 Hr1. bind_inv H as c Hc.
    assert (c = true).
    { eapply assignment_complete_result; [|exact Hc]. intros; eapply Hcomp; eauto. }
    subst c. inversion H; subst. simpl in Hres.
    eapply Hrec; [|exact Hr1|exact Hres].
    eapply within_set; [exact Hw|exact Hdv|]. apply Hincl. now left.
Qed.

Lemma backtrack_within (fuel : nat) (doms : domains) :
  forall (a : assignment) (r : search) (a' : assignment),
    within doms a ->
    backtrack variables overlaps fuel doms a = Ok r -> result r = Some a' ->
    within doms a'.
Proof.
  induction fuel as [|fuel IH]; intros a r a' Hw H Hres; [discriminate|].
  simpl in H.
  destruct (forallb (fun var => dict_mem Var_eq_dec a var) (dict_keys doms)) eqn:Ec.
  - inversion H; subst. simpl in Hres. inversion Hres; subst. exact Hw.
  - bind_inv H as var Hvar. bind_inv H as vals Hvals.
    apply select_unassigned_variable_spec in Hvar. destruct Hvar as ([Hk _] & _).
    destruct (dict_key_get Var_eq_dec doms var Hk) as [dv Hdv].
    eapply backtrack_loop_within; [exact Hdv|exact Hw|exact IH| | |exact H|exact Hres].
    + intros a1 r1 a1'. apply backtrack_complete.
    + intros w Hin. now apply (order_domain_values_In _ _ _ _ _ Hvals Hdv).
Qed.
End WithinFacts.

(** X20. Every word of an assignment that solve returns is a word of the
    word list, assigned to a variable of the puzzle, and is still in the
    domain of that variable when the search ends. *)
Theorem solve_words_from_list (variables : list Var) (words : list word)
        (overlaps : Var -> Var -> option (nat * nat))
        (a : assignment) (doms' : domains) (n : nat) (v : Var) (w : word) :
  solve variables overlaps (init_domains variables words) = Ok (Some a, doms', n) ->
  dict_get Var_eq_dec a v = Some w ->
  In v variables /\ In w words
  /\ exists ws, dict_get Var_eq_dec doms' v = Some ws /\ In w ws.
Proof.
  unfold solve. intros H Hv. bind_inv H as bd Hac3. destruct bd as [b d].
  bind_inv H as r Hr. inversion H; subst. clear H.
  assert (Hw : within doms' []) by (intros v' w' H'; discriminate).
  destruct (@backtrack_within variables overlaps _ _ _ _ _ Hw Hr H1 v w Hv)
    as (ws & Hws & Hin).
  apply ac3_narrows in Hac3. destruct Hac3 as [Hn _].
  pose proof (narrows_trans
                (enforce_node_consistency_narrows (init_domains variables words)) Hn)
    as Hn0.
  destruct (narrows_incl _ Hn0 Hws) as (ws0 & Hws0 & Hincl).
  unfold init_domains in Hws0. rewrite init_domains_fold in Hws0.
  destruct (in_dec Var_eq_dec v variables); [|discriminate].
  inversion Hws0; subst. split; [assumption|]. split; [now apply Hincl|eauto].
Qed.

Lemma solve_words_from_list_witness :
  In Corner.B Corner.variables /\ In "COGS"%string Corner.words_solvable
  /\ exists ws, dict_get Var_eq_dec
                         [(Corner.A, ["CAT"%string]); (Corner.B, ["COGS"%string])]
                         Corner.B
                = Some ws /\ In "COGS"%string ws.
Proof.
  apply (@solve_words_from_list Corner.variables Corner.words_solvable
                                Corner.overlaps
                                [(Corner.A, "CAT"%string); (Corner.B, "COGS"%string)]
                                _ 3).
  - vm_compute. reflexivity.
  - reflexivity.
Defined.

(** ** print *)

Lemma foldM_append {A B : Type} (p : A -> res B) (q : A -> B) (l : list A) :
  (forall a, In a l -> p a = Ok (q a)) ->
  forall out, foldM (fun out a => s <- p a ;; Ok (out ++ [s])) l out
              = Ok (out ++ map q l).
Proof.
  induction l as [|a l IH]; intros H out; simpl; [now rewrite app_nil_r|].
  rewrite (H a) by now left. simpl. rewrite IH by (intros b Hb; apply H; now right).
  now rewrite <- app_assoc.
Qed.

Lemma foldM_rows {A B : Type} (p : list B -> A -> res (list B)) (row : A -> list B)
      (l : list A) :
  (forall out a, In a l -> p out a = Ok (out ++ row a)) ->
  forall out, foldM p l out = Ok (out ++ flat_map row l).
Proof.
  induction l as [|a l IH]; intros H out; simpl; [now rewrite app_nil_r|].
  rewrite (H out a) by now left. simpl.
  rewrite IH by (intros o b Hb; apply H; now right). now rewrite <- app_assoc.
Qed.

(** The literal for a closed cell is the seven bytes of line 45. *)
Lemma block_bytes :
  map nat_of_ascii (list_ascii_of_string block) = [195; 162; 226; 128; 147; 203; 134]
  /\ block = closed_cell.
Proof. split; reflexivity. Qed.

Section PrintFacts.
Variable width height : nat.
Variable structure : list (list bool).

Lemma print_cell_glyph (a : assignment) (g : grid) (i j : nat) :
  structure_shaped width height structure ->
  (forall i j, i < height -> j < width -> get_cell g i j = Some (letter_at a i j)) ->
  i < height -> j < width ->
  print_cell structure g i j = Ok (glyph structure a i j).
Proof.
  intros [Hlen Hrows] Hg Hi Hj. unfold print_cell, glyph, getlist.
  destruct (nth_error structure i) as [srow|] eqn:Es.
  2:{ apply nth_error_None in Es. lia. }
  rewrite (nth_error_nth _ _ [] Es). simpl.
  assert (Hrow : List.length srow = width).
  { rewrite Forall_forall in Hrows. apply Hrows. eapply nth_error_In; eauto. }
  destruct (nth_error srow j) as [s|] eqn:Ej.
  2:{ apply nth_error_None in Ej. lia. }
  rewrite (nth_error_nth _ _ false Ej). simpl. destruct s; [|reflexivity].
  specialize (Hg i j Hi Hj). unfold get_cell in Hg.
  destruct (nth_error g i) as [lrow|]; [|discriminate]. simpl.
  rewrite Hg. reflexivity.
Qed.

Lemma print_ok (a : assignment) :
  structure_shaped width height structure -> inside width height a ->
  print width height structure a = Ok (rendering width height structure a).
Proof.
  intros Hs Hin. unfold print, rendering.
  destruct (letter_grid_ok Hin) as (g & Hg & _ & Hc). rewrite Hg. simpl.
  apply (foldM_rows
           (fun out i =>
              out <- foldM (fun out j => s <- print_cell structure g i j ;; Ok (out ++ [s]))
                           (seq 0 width) out ;;
              Ok (out ++ [newline]))
           (fun i => map (glyph structure a i) (seq 0 width) ++ [newline])).
  intros out i Hi. apply in_seq in Hi.
  rewrite (foldM_append (fun j => print_cell structure g i j) (glyph structure a i)).
  - simpl. now rewrite <- app_assoc.
  - intros j Hj. apply in_seq in Hj. apply print_cell_glyph; auto; lia.
Qed.

End PrintFacts.

(** X21. print, for a structure of the size of the grid and words that stay
    inside it, writes row after row: for every closed cell the literal of
    line 45 (the bytes c3 a2 e2 80 93 cb 86), for every open cell the letter
    written last there or a blank, and a line end after each row. *)
Theorem print_rendering (width height : nat) (structure : list (list bool))
        (a : assignment) :
  structure_shaped width height structure -> inside width height a ->
  print width height structure a = Ok (rendering width height structure a).
Proof. apply print_ok. Qed.

Lemma print_rendering_witness :
  print 3 4 [[true; true; true]; [true; false; false];
             [true; false; false]; [true; false; false]]
        [(Corner.A, "CAT"%string); (Corner.B, "COGS"%string)]
  = Ok (rendering 3 4 [[true; true; true]; [true; false; false];
                       [true; false; false]; [true; false; false]]
                  [(Corner.A, "CAT"%string); (Corner.B, "COGS"%string)]).
Proof.
  apply print_rendering.
  - split; [reflexivity|]. repeat constructor.
  - intros i j c H. vm_compute in H. list_cases; split; lia.
Defined.
